(** * The orchestration engine of the engine CLI (tools/engine_cli/src/Engine.js)

    A shallow embedding of the asynchronous function [run] of Engine.js and of
    the part of the JavaScript run time it relies on (exceptions, [process.exit],
    [await], [Promise.all]), followed by the properties of the orchestration:
    gates, packager start, fan-out over the platform runners, cleanup.

    The collaborators of [run] (validator, generator, watcher, packager runner,
    platform runners, logger) live in other files; their behaviour is a
    parameter of the model, the record [world]. *)

From Stdlib Require Import List String ZArith Bool Arith Lia Sorted.
Import ListNotations.
Open Scope string_scope.

(* ================================================================== *)
(** * Values *)
(* ================================================================== *)

(** A thrown JavaScript value.  Only its identity matters here. *)
Definition error := string.

Inductive platform := Ios | Android.

(** The parsed arguments, as [parseArgs] (lines 12-70) produces them.  A
    [storeTrue] flag is a boolean; an option without default is [null] when
    absent, hence [option string]. *)
Record Args := {
  run_ios : bool;
  run_android : bool;
  disable_uninstall : bool;
  native_build_type : string;
  custom_config_json : option string;
  ios_devices : option string;
  ios_udids : option string;
  no_packager : bool;
  reset_cache : bool;
  packager_port : string;
  force_localhost : bool
}.

(** The object literal passed to [GenerateConfiguration.run] (lines 81-86). *)
Record generate_options := {
  root_path : string;
  package_json_path : string;
  watch : bool;
  go_force_localhost : bool
}.

(** [new PackagerWatcher(port, no_packager)], [new IosRunner(watcher, devices,
    udids)] and [new AndroidRunner(watcher)]: an object is the arguments of its
    constructor. *)
Record watcher := { w_port : string; w_no_packager : bool }.
Record ios_runner := {
  ios_watcher : watcher; ir_devices : option string; ir_udids : option string }.
Record android_runner := { android_watcher : watcher }.

(** How a promise ends. *)
Inductive settlement := Fulfilled | Rejected (e : error).

(** The promise a platform runner returns, by the way it ends.  When it is
    settled, and in which order with the promise of the other runner, is
    decided by the event loop: see [first_settled] and [overtaking] in
    [world]. *)
Inductive promise := Settles (s : settlement) | NeverSettles.

(** A call of a runner's [run] method: it throws at once, or returns a
    promise. *)
Inductive runner_call := RunThrows (e : error) | RunReturns (p : promise).

(** What [await packagerWatcher.validateDown()] observes. *)
Inductive awaited (A : Type) :=
| Resolves (v : A)
| RejectsWith (e : error)
| StaysPending.
Arguments Resolves {A} v.
Arguments RejectsWith {A} e.
Arguments StaysPending {A}.

(** The value of the variable [packagerProcess] (line 73).  [Undefined] until
    assigned; the packager runner may return any value: one without a [kill]
    function ([NotKillable]) or a process handle whose [kill()] returns
    ([Killable None]) or throws ([Killable (Some e)]). *)
Inductive handle :=
| Undefined
| NotKillable
| Killable (kill_throws : option error).

(** Modelled from the spec: the collaborators of [run] (RNCLIConfigValidator,
    GenerateConfiguration, PackagerWatcher, AsyncPackagerRunner, IosRunner,
    AndroidRunner, Logger) are required from other files, which are not part
    of the sources at hand.  Their behaviour is a parameter of [run], together
    with the ambient values [__dirname], [process.cwd()] and the constant
    [simulator] of BuildPlatforms.

    [RNCLIConfigValidator_run] and [GenerateConfiguration_run] are the two
    pass/fail gates: [Some e] is "throws [e]".  [validateDown] answers through
    a promise.  A platform runner fails by throwing or by rejecting the
    promise it returns, or never finishes.  The packager runner hands back a
    value that may or may not be killable.  The watcher's constructor, its
    [startWatchingUntilUp] (non-blocking, it reports through readiness only)
    and the logger have no failure of their own.

    The last two fields are the part of the scheduling the code does not
    control.  [first_settled]: when the promises of both runners are settled,
    the platform whose promise is settled first, so that its wrapper resumes
    first.  [overtaking]: once a wrapper is rejected, [Promise.all]'s reject
    reaction and the continuation of [run] are two further promise jobs; a
    wrapper whose promise is settled before those jobs have run still
    resumes before [run] does.  [overtaking] is the number of wrappers that
    do so. *)
Record world := {
  dirname : string;
  cwd : string;
  simulator : string;
  RNCLIConfigValidator_run : option error;
  GenerateConfiguration_run : generate_options -> option error;
  validateDown : watcher -> awaited bool;
  AsyncPackagerRunner_run : string -> bool -> string -> handle;
  IosRunner_run : ios_runner -> string -> string -> bool -> string -> runner_call;
  AndroidRunner_run : android_runner -> string -> string -> bool -> runner_call;
  first_settled : platform;
  overtaking : nat
}.

(* ================================================================== *)
(** * Observable events *)
(* ================================================================== *)

(** Every call [run] makes to a collaborator, in order.  [Settled pf s] marks
    the point where the [await] inside the wrapper of platform [pf] resumes
    with settlement [s]. *)
Inductive event :=
| Log_info (msg : string)
| Log_error (msg : string) (err : option error)
| Validator_run
| Generate_run (o : generate_options)
| Watcher_new (port : string) (no_pkg : bool)
| Watcher_validateDown (pw : watcher)
| Watcher_startWatchingUntilUp (pw : watcher)
| Packager_run (engineDir : string) (reset : bool) (port : string)
| Ios_new (r : ios_runner)
| Ios_run (r : ios_runner) (engineDir buildType : string) (noUninstall : bool)
          (target : string)
| Android_new (r : android_runner)
| Android_run (r : android_runner) (engineDir buildType : string)
              (noUninstall : bool)
| Settled (pf : platform) (s : settlement)
| Process_kill
| Process_exit (code : Z).

(* ================================================================== *)
(** * The monad of statements *)
(* ================================================================== *)

(** How a statement ends: normally, by a [throw], by [process.exit] (the
    process is gone, nothing runs afterwards), or never (suspended at an
    [await] that is never resumed). *)
Inductive completion (A : Type) :=
| Normal (a : A)
| Throw (e : error)
| Exit (code : Z)
| Pending.
Arguments Normal {A} a.
Arguments Throw {A} e.
Arguments Exit {A} code.
Arguments Pending {A}.

Record result (A : Type) := mkResult {
  trace : list event;
  store : handle;
  outcome : completion A
}.
Arguments mkResult {A} _ _ _.
Arguments trace {A} _.
Arguments store {A} _.
Arguments outcome {A} _.

(** A statement reads and writes the one mutable variable of [run],
    [packagerProcess], and emits events. *)
Definition M (A : Type) := handle -> result A.

Definition ret {A} (a : A) : M A := fun s => mkResult [] s (Normal a).

Definition bind {A B} (m : M A) (f : A -> M B) : M B :=
  fun s =>
    let r := m s in
    match outcome r with
    | Normal a =>
        let r' := f a (store r) in
        mkResult (trace r ++ trace r') (store r') (outcome r')
    | Throw e => mkResult (trace r) (store r) (Throw e)
    | Exit c => mkResult (trace r) (store r) (Exit c)
    | Pending => mkResult (trace r) (store r) Pending
    end.

Declare Scope js_scope.
Delimit Scope js_scope with js.
Notation "x <- m ;; k" := (bind m (fun x => k))
  (at level 100, m at next level, right associativity) : js_scope.
Notation "m ;; k" := (bind m (fun _ => k))
  (at level 100, right associativity) : js_scope.
Open Scope js_scope.

Definition emit (ev : event) : M unit := fun s => mkResult [ev] s (Normal tt).
Definition throw {A} (e : error) : M A := fun s => mkResult [] s (Throw e).
Definition suspend_forever {A} : M A := fun s => mkResult [] s Pending.
Definition get_packagerProcess : M handle := fun s => mkResult [] s (Normal s).
Definition set_packagerProcess (h : handle) : M unit :=
  fun _ => mkResult [] h (Normal tt).

(** [process.exit(code)] *)
Definition process_exit {A} (code : Z) : M A :=
  fun s => mkResult [Process_exit code] s (Exit code).

(** [try { m } catch (e) { h e }] *)
Definition try_catch {A} (m : M A) (h : error -> M A) : M A :=
  fun s =>
    let r := m s in
    match outcome r with
    | Throw e =>
        let r' := h e (store r) in
        mkResult (trace r ++ trace r') (store r') (outcome r')
    | _ => r
    end.

Definition Logger_info (msg : string) : M unit := emit (Log_info msg).
Definition Logger_error (msg : string) (err : option error) : M unit :=
  emit (Log_error msg err).

(** A call that either returns or throws. *)
Definition may_throw (ev : event) (behaviour : option error) : M unit :=
  emit ev ;;
  match behaviour with
  | Some e => throw e
  | None => ret tt
  end.

(** [new PackagerWatcher(port, no_packager)] *)
Definition PackagerWatcher_new (port : string) (no_pkg : bool) : M watcher :=
  emit (Watcher_new port no_pkg) ;;
  ret {| w_port := port; w_no_packager := no_pkg |}.

(** [await p] for a promise whose settlement time does not matter. *)
Definition await {A} (p : awaited A) : M A :=
  match p with
  | Resolves v => ret v
  | RejectsWith e => throw e
  | StaysPending => suspend_forever
  end.

(* ================================================================== *)
(** * Asynchronous wrappers and [Promise.all] *)
(* ================================================================== *)

(** The promise of one wrapper [(async () => { ... })()] of lines 107-128 when
    the call returns: already settled ([Finished]), or suspended at its
    [await] on the runner's promise. *)
Inductive branch :=
| Finished (s : settlement)
| Suspended (pf : platform) (p : promise).

Definition branch_label (pf : platform) : string :=
  match pf with
  | Ios => "Error running iOS tasks:"
  | Android => "Error running Android tasks:"
  end.

(** The [catch (error)] block of a wrapper (lines 113-116 and 124-127). *)
Definition branch_catch {A} (pf : platform) (err : error) : M A :=
  Logger_error (branch_label pf) (Some err) ;;
  throw err.

(** The call of a wrapper.  [body] is the code of its [try] block up to the
    [await]: it yields the promise to wait for, or nothing when the [if] is
    not taken.  An async function never throws to its caller: an error
    leaving its body rejects the returned promise. *)
Definition async_call (pf : platform) (body : M (option promise)) : M branch :=
  fun s =>
    let r := try_catch body (branch_catch pf) s in
    match outcome r with
    | Normal None => mkResult (trace r) (store r) (Normal (Finished Fulfilled))
    | Normal (Some p) => mkResult (trace r) (store r) (Normal (Suspended pf p))
    | Throw e => mkResult (trace r) (store r) (Normal (Finished (Rejected e)))
    | Exit c => mkResult (trace r) (store r) (Exit c)
    | Pending => mkResult (trace r) (store r) Pending
    end.

(** The rest of a wrapper once the awaited promise is settled: the [await]
    returns or throws inside the [try]; nothing follows it in the block. *)
Definition resume (pf : platform) (s : settlement) : M unit :=
  try_catch
    (emit (Settled pf s) ;;
     match s with
     | Fulfilled => ret tt
     | Rejected e => throw e
     end)
    (branch_catch pf).

(** The settlement of the wrapper's own promise after [resume]: [Some e] when
    it is rejected with [e]. *)
Definition rejection_of (m : M unit) : M (option error) :=
  fun s =>
    let r := m s in
    match outcome r with
    | Normal _ => mkResult (trace r) (store r) (Normal None)
    | Throw e => mkResult (trace r) (store r) (Normal (Some e))
    | Exit c => mkResult (trace r) (store r) (Exit c)
    | Pending => mkResult (trace r) (store r) Pending
    end.

Definition platform_eqb (a b : platform) : bool :=
  match a, b with
  | Ios, Ios | Android, Android => true
  | _, _ => false
  end.

(** The first element of the array that is already rejected. *)
Fixpoint first_rejected (bs : list branch) : option error :=
  match bs with
  | [] => None
  | Finished (Rejected e) :: _ => Some e
  | _ :: bs' => first_rejected bs'
  end.

Definition never_settles (b : branch) : bool :=
  match b with
  | Suspended _ NeverSettles => true
  | _ => false
  end.

(** The wrappers that will resume: those suspended on a promise that
    settles, each with the settlement it will see. *)
Fixpoint settling (bs : list branch) : list (platform * settlement) :=
  match bs with
  | [] => []
  | Suspended pf (Settles s) :: bs' => (pf, s) :: settling bs'
  | _ :: bs' => settling bs'
  end.

(** The order in which they resume is the order in which the awaited
    promises are settled: the wrapper of [first] before the other. *)
Definition resume_queue (first : platform) (bs : list branch)
  : list (platform * settlement) :=
  filter (fun b => platform_eqb (fst b) first) (settling bs) ++
  filter (fun b => negb (platform_eqb (fst b) first)) (settling bs).

(** One wrapper resumes; the result is the rejection of its own promise, if
    any. *)
Definition resume_wrapper (b : platform * settlement) : M (option error) :=
  rejection_of (resume (fst b) (snd b)).

(** After the first rejection: [k] more wrappers of the queue resume before
    the awaiting function does. *)
Fixpoint resume_overtaking (k : nat) (queue : list (platform * settlement))
  : M unit :=
  match k, queue with
  | S k', b :: queue' => resume_wrapper b ;; resume_overtaking k' queue'
  | _, _ => ret tt
  end.

(** The wrappers of the queue resume one after the other as long as none is
    rejected.  The first rejection [e] rejects the promise of [Promise.all];
    [k] more wrappers resume, then the awaiting function resumes and throws
    [e]: it does not wait for the wrappers left in the queue. *)
Fixpoint event_loop (k : nat) (queue : list (platform * settlement))
  : M unit :=
  match queue with
  | [] => ret tt
  | b :: queue' =>
      r <- resume_wrapper b ;;
      match r with
      | Some e => resume_overtaking k queue' ;; throw e
      | None => event_loop k queue'
      end
  end.

(** [await Promise.all(bs)] seen from the awaiting function.  An element
    already rejected when [Promise.all] is called decides the rejection (the
    first one of the array, if several): its reaction is queued before that
    of any wrapper rejected later.  Otherwise the promise of [Promise.all] is
    rejected by the first wrapper that is rejected, is fulfilled when every
    element is, and stays pending when no element is rejected and one never
    settles.  In both cases of rejection [k] wrappers may still resume
    before the awaiting function does. *)
Definition await_Promise_all (first : platform) (k : nat) (bs : list branch)
  : M unit :=
  match first_rejected bs with
  | Some e => resume_overtaking k (resume_queue first bs) ;; throw e
  | None =>
      event_loop k (resume_queue first bs) ;;
      if existsb never_settles bs then suspend_forever else ret tt
  end.

(* ================================================================== *)
(** * [run] (lines 72-146) *)
(* ================================================================== *)

Section Run.
Variable args : Args.
Variable w : world.

(** line 75 *)
Definition engineDir : string := dirname w ++ "/../../..".

(** [args.custom_config_json || `${process.cwd()}/package.json`]: [null]
    and the empty string are falsy. *)
Definition config_path : string :=
  match custom_config_json args with
  | Some (String c s) => String c s
  | _ => cwd w ++ "/package.json"
  end.

Definition generate_args : generate_options :=
  {| root_path := engineDir ++ "/../..";
     package_json_path := config_path;
     watch := false;
     go_force_localhost := force_localhost args |}.

Definition port_in_use_message : string :=
  ("A packager is already running on port " ++ packager_port args ++ ". ")
  ++ "Use the -P option to bypass starting a new packager or stop the existing one.".

(** lines 77-96: the two configuration gates and the port gate.  Yields the
    watcher. *)
Definition gates : M watcher :=
  Logger_info "Validating React Native CLI configuration..." ;;
  may_throw Validator_run (RNCLIConfigValidator_run w) ;;
  Logger_info "Generating project configuration..." ;;
  may_throw (Generate_run generate_args)
            (GenerateConfiguration_run w generate_args) ;;
  packagerWatcher <- PackagerWatcher_new (packager_port args)
                                         (no_packager args) ;;
  emit (Watcher_validateDown packagerWatcher) ;;
  down <- await (validateDown w packagerWatcher) ;;
  (if negb down
   then Logger_error port_in_use_message None ;; process_exit 1
   else ret tt) ;;
  ret packagerWatcher.

(** lines 98-103 *)
Definition start_packager (packagerWatcher : watcher) : M unit :=
  emit (Watcher_startWatchingUntilUp packagerWatcher) ;;
  if negb (no_packager args)
  then
    Logger_info "Starting Metro Bundler..." ;;
    emit (Packager_run engineDir (reset_cache args) (packager_port args)) ;;
    set_packagerProcess
      (AsyncPackagerRunner_run w engineDir (reset_cache args)
                               (packager_port args))
  else ret tt.

(** lines 109-112, up to the [await] *)
Definition ios_body (packagerWatcher : watcher) : M (option promise) :=
  if run_ios args
  then
    let iosRunner :=
      {| ios_watcher := packagerWatcher;
         ir_devices := ios_devices args;
         ir_udids := ios_udids args |} in
    emit (Ios_new iosRunner) ;;
    emit (Ios_run iosRunner engineDir (native_build_type args)
                  (disable_uninstall args) (simulator w)) ;;
    match IosRunner_run w iosRunner engineDir (native_build_type args)
                        (disable_uninstall args) (simulator w) with
    | RunThrows e => throw e
    | RunReturns p => ret (Some p)
    end
  else ret None.

(** lines 120-123, up to the [await] *)
Definition android_body (packagerWatcher : watcher) : M (option promise) :=
  if run_android args
  then
    let androidRunner := {| android_watcher := packagerWatcher |} in
    emit (Android_new androidRunner) ;;
    emit (Android_run androidRunner engineDir (native_build_type args)
                      (disable_uninstall args)) ;;
    match AndroidRunner_run w androidRunner engineDir
                            (native_build_type args)
                            (disable_uninstall args) with
    | RunThrows e => throw e
    | RunReturns p => ret (Some p)
    end
  else ret None.

(** lines 105-129: both wrappers are called, in the order of the array
    literal, before [Promise.all] is awaited. *)
Definition fan_out (packagerWatcher : watcher) : M unit :=
  Logger_info "Running platform-specific tasks..." ;;
  ios <- async_call Ios (ios_body packagerWatcher) ;;
  android <- async_call Android (android_body packagerWatcher) ;;
  await_Promise_all (first_settled w) (overtaking w) [ios; android].

(** lines 75-129, the [try] block *)
Definition try_block : M unit :=
  packagerWatcher <- gates ;;
  start_packager packagerWatcher ;;
  fan_out packagerWatcher.

(** lines 133-142 *)
Definition stop_packager : M unit :=
  packagerProcess <- get_packagerProcess ;;
  match packagerProcess with
  | Killable kill =>
      try_catch
        (Logger_info "Stopping the Metro Bundler process..." ;;
         may_throw Process_kill kill)
        (fun killError =>
           Logger_error "Failed to stop the Metro Bundler process:"
                        (Some killError))
  | _ => Logger_info "No Metro Bundler process to stop."
  end.

(** lines 130-145, the [catch (ex)] block *)
Definition catch_block (ex : error) : M unit :=
  Logger_error "An error occurred:" (Some ex) ;;
  stop_packager ;;
  process_exit 0.

(** [run(args)]: [packagerProcess] starts undefined (line 73).  The outcome
    [Normal] is the returned promise fulfilled, [Throw] the promise
    rejected, [Exit] the process terminated, [Pending] the promise never
    settled. *)
Definition run : result unit :=
  try_catch try_block catch_block Undefined.

End Run.

(* ================================================================== *)
(** * Vocabulary of the statements *)
(* ================================================================== *)

Open Scope list_scope.

(** The watcher and the runners [run] builds from its arguments. *)
Definition watcher_of (args : Args) : watcher :=
  {| w_port := packager_port args; w_no_packager := no_packager args |}.

Definition requested (args : Args) (pf : platform) : bool :=
  match pf with
  | Ios => run_ios args
  | Android => run_android args
  end.

(** What the runner of [pf] answers to the call [run] makes. *)
Definition runner_answer (args : Args) (w : world) (pf : platform)
  : runner_call :=
  match pf with
  | Ios =>
      IosRunner_run w
        {| ios_watcher := watcher_of args;
           ir_devices := ios_devices args;
           ir_udids := ios_udids args |}
        (engineDir w) (native_build_type args) (disable_uninstall args)
        (simulator w)
  | Android =>
      AndroidRunner_run w {| android_watcher := watcher_of args |}
        (engineDir w) (native_build_type args) (disable_uninstall args)
  end.

Definition sibling (pf : platform) : platform :=
  match pf with
  | Ios => Android
  | Android => Ios
  end.

(** The handle the packager runner answers with. *)
Definition spawned_handle (args : Args) (w : world) : handle :=
  AsyncPackagerRunner_run w (engineDir w) (reset_cache args)
                          (packager_port args).

(** Both configuration gates and the port gate let the run through. *)
Definition gates_pass (args : Args) (w : world) : Prop :=
  RNCLIConfigValidator_run w = None /\
  GenerateConfiguration_run w (generate_args args w) = None /\
  validateDown w (watcher_of args) = Resolves true.

(** The platform [pf] is launched and its runner hands back the promise
    [p]. *)
Definition launched (args : Args) (w : world) (pf : platform) (p : promise)
  : Prop :=
  requested args pf = true /\ runner_answer args w pf = RunReturns p.

(** The platform [pf], if requested, completes without error. *)
Definition succeeds (args : Args) (w : world) (pf : platform) : Prop :=
  requested args pf = true ->
  runner_answer args w pf = RunReturns (Settles Fulfilled).

(** The [catch (ex)] block of [run] was entered with [ex]. *)
Definition catch_entry (ex : error) : event :=
  Log_error "An error occurred:" (Some ex).

Definition caught (tr : list event) : Prop :=
  exists ex, In (catch_entry ex) tr.

(** The wrapper of [pf] has resumed from its [await] somewhere in [tr]. *)
Definition has_settled (pf : platform) (tr : list event) : Prop :=
  exists s, In (Settled pf s) tr.


Definition is_kill (ev : event) : bool :=
  match ev with
  | Process_kill => true
  | _ => false
  end.

Definition is_catch_entry (ev : event) : bool :=
  match ev with
  | Log_error msg (Some _) => String.eqb msg "An error occurred:"
  | _ => false
  end.

Definition count (p : event -> bool) (tr : list event) : nat :=
  List.length (filter p tr).

(** The status the process ends with: the argument of [process.exit], or 0
    when [run] returns, since it never assigns [process.exitCode]. *)
Definition exit_code (o : completion unit) : option Z :=
  match o with
  | Exit c => Some c
  | Normal _ => Some 0%Z
  | _ => None
  end.

(** The position of a call in the sequence of steps of [run]. *)
Definition step_rank (ev : event) : option nat :=
  match ev with
  | Validator_run => Some 0
  | Generate_run _ => Some 1
  | Watcher_validateDown _ => Some 2
  | Watcher_startWatchingUntilUp _ => Some 3
  | Packager_run _ _ _ => Some 4
  | Ios_new _ => Some 5
  | Ios_run _ _ _ _ _ => Some 6
  | Android_new _ => Some 7
  | Android_run _ _ _ _ => Some 8
  | _ => None
  end.

Fixpoint steps (tr : list event) : list nat :=
  match tr with
  | [] => []
  | ev :: tr' =>
      match step_rank ev with
      | Some r => r :: steps tr'
      | None => steps tr'
      end
  end.

(** The same world with another behaviour of [kill()] on the handle the
    packager runner returns. *)
Definition with_kill (w : world) (k : option error) : world :=
  {| dirname := dirname w;
     cwd := cwd w;
     simulator := simulator w;
     RNCLIConfigValidator_run := RNCLIConfigValidator_run w;
     GenerateConfiguration_run := GenerateConfiguration_run w;
     validateDown := validateDown w;
     AsyncPackagerRunner_run := fun d r p =>
       match AsyncPackagerRunner_run w d r p with
       | Killable _ => Killable k
       | h => h
       end;
     IosRunner_run := IosRunner_run w;
     AndroidRunner_run := AndroidRunner_run w;
     first_settled := first_settled w;
     overtaking := overtaking w |}.

(** ** The wrappers of a run *)

(** The wrapper the call of lines 107-128 leaves behind for [pf]. *)
Definition branch_of (args : Args) (w : world) (pf : platform) : branch :=
  if requested args pf
  then match runner_answer args w pf with
       | RunThrows e => Finished (Rejected e)
       | RunReturns p => Suspended pf p
       end
  else Finished Fulfilled.

Definition branches (args : Args) (w : world) : list branch :=
  [branch_of args w Ios; branch_of args w Android].

(** Events and rejection of one wrapper that resumes. *)
Definition wrapper_events (b : platform * settlement) : list event :=
  Settled (fst b) (snd b) ::
  match snd b with
  | Fulfilled => []
  | Rejected e => [Log_error (branch_label (fst b)) (Some e)]
  end.

Definition wrapper_rejection (b : platform * settlement) : option error :=
  match snd b with
  | Fulfilled => None
  | Rejected e => Some e
  end.

Definition overtaking_events (k : nat) (queue : list (platform * settlement))
  : list event :=
  flat_map wrapper_events (firstn k queue).

Fixpoint loop_events (k : nat) (queue : list (platform * settlement))
  : list event :=
  match queue with
  | [] => []
  | b :: queue' =>
      wrapper_events b ++
      match wrapper_rejection b with
      | Some _ => overtaking_events k queue'
      | None => loop_events k queue'
      end
  end.

Fixpoint loop_rejection (queue : list (platform * settlement))
  : option error :=
  match queue with
  | [] => None
  | b :: queue' =>
      match wrapper_rejection b with
      | Some e => Some e
      | None => loop_rejection queue'
      end
  end.

Definition join_events (first : platform) (k : nat) (bs : list branch)
  : list event :=
  match first_rejected bs with
  | Some _ => overtaking_events k (resume_queue first bs)
  | None => loop_events k (resume_queue first bs)
  end.

Definition join_outcome (first : platform) (bs : list branch)
  : completion unit :=
  match first_rejected bs with
  | Some e => Throw e
  | None =>
      match loop_rejection (resume_queue first bs) with
      | Some e => Throw e
      | None => if existsb never_settles bs then Pending else Normal tt
      end
  end.

Definition is_branch_event (ev : event) : bool :=
  match ev with
  | Settled _ _ => true
  | Log_error msg (Some _) =>
      String.eqb msg (branch_label Ios) || String.eqb msg (branch_label Android)
  | _ => false
  end.

(** ** The events of [run], segment by segment *)

(** Lines 77-90, when no gate throws. *)
Definition gate_events (args : Args) (w : world) : list event :=
  [Log_info "Validating React Native CLI configuration...";
   Validator_run;
   Log_info "Generating project configuration...";
   Generate_run (generate_args args w);
   Watcher_new (packager_port args) (no_packager args);
   Watcher_validateDown (watcher_of args)].

(** Lines 98-103. *)
Definition packager_events (args : Args) (w : world) : list event :=
  Watcher_startWatchingUntilUp (watcher_of args) ::
  (if no_packager args then []
   else [Log_info "Starting Metro Bundler...";
         Packager_run (engineDir w) (reset_cache args) (packager_port args)]).

(** The synchronous part of the wrapper of [pf]. *)
Definition launch_events (args : Args) (w : world) (pf : platform)
  : list event :=
  if requested args pf
  then
    match pf with
    | Ios =>
        let r := {| ios_watcher := watcher_of args;
                    ir_devices := ios_devices args;
                    ir_udids := ios_udids args |} in
        [Ios_new r;
         Ios_run r (engineDir w) (native_build_type args)
                 (disable_uninstall args) (simulator w)]
    | Android =>
        let r := {| android_watcher := watcher_of args |} in
        [Android_new r;
         Android_run r (engineDir w) (native_build_type args)
                     (disable_uninstall args)]
    end ++
    match runner_answer args w pf with
    | RunThrows e => [Log_error (branch_label pf) (Some e)]
    | RunReturns _ => []
    end
  else [].

(** Everything up to the [await] of line 106. *)
Definition prelude (args : Args) (w : world) : list event :=
  gate_events args w ++ packager_events args w ++
  Log_info "Running platform-specific tasks..." ::
  launch_events args w Ios ++ launch_events args w Android.

(** The value of [packagerProcess] once line 103 is passed. *)
Definition retained_handle (args : Args) (w : world) : handle :=
  if no_packager args then Undefined else spawned_handle args w.

(** The [await] of line 106 on the two wrappers of this run. *)
Definition join (args : Args) (w : world) : result unit :=
  await_Promise_all (first_settled w) (overtaking w) (branches args w)
                    (retained_handle args w).

(** Lines 131-144 with [packagerProcess = h]. *)
Definition cleanup_events (ex : error) (h : handle) : list event :=
  catch_entry ex ::
  match h with
  | Killable k =>
      Log_info "Stopping the Metro Bundler process..." :: Process_kill ::
      match k with
      | Some killError =>
          [Log_error "Failed to stop the Metro Bundler process:"
                     (Some killError)]
      | None => []
      end
  | _ => [Log_info "No Metro Bundler process to stop."]
  end ++ [Process_exit 0].

(** ** Classes of events *)

(** The calls that start something: the bundler or a platform runner. *)
Definition starts_process (ev : event) : bool :=
  match ev with
  | Packager_run _ _ _ | Ios_new _ | Ios_run _ _ _ _ _
  | Android_new _ | Android_run _ _ _ _ => true
  | _ => false
  end.

Definition is_packager_run (ev : event) : bool :=
  match ev with
  | Packager_run _ _ _ => true
  | _ => false
  end.

Definition is_watcher_new (ev : event) : bool :=
  match ev with
  | Watcher_new _ _ => true
  | _ => false
  end.

Definition is_start_watching (ev : event) : bool :=
  match ev with
  | Watcher_startWatchingUntilUp _ => true
  | _ => false
  end.

Definition is_settled (ev : event) : bool :=
  match ev with
  | Settled _ _ => true
  | _ => false
  end.

(** The runner of [pf] is called and fails with [e], at once or through the
    promise it returns. *)
Definition fails (args : Args) (w : world) (pf : platform) (e : error)
  : Prop :=
  requested args pf = true /\
  (runner_answer args w pf = RunThrows e \/
   runner_answer args w pf = RunReturns (Settles (Rejected e))).



(** ** Sample runs *)

Definition sample_args (ios android no_pkg : bool) : Args :=
  {| run_ios := ios;
     run_android := android;
     disable_uninstall := false;
     native_build_type := "dev";
     custom_config_json := None;
     ios_devices := None;
     ios_udids := None;
     no_packager := no_pkg;
     reset_cache := false;
     packager_port := "8081";
     force_localhost := false |}.

Definition sample_world (validator generator : option error)
           (down : awaited bool) (h : handle) (ios android : runner_call)
  : world :=
  {| dirname := "/app/node_modules/engine/tools/engine_cli/src";
     cwd := "/app";
     simulator := "simulator";
     RNCLIConfigValidator_run := validator;
     GenerateConfiguration_run := fun _ => generator;
     validateDown := fun _ => down;
     AsyncPackagerRunner_run := fun _ _ _ => h;
     IosRunner_run := fun _ _ _ _ _ => ios;
     AndroidRunner_run := fun _ _ _ _ => android;
     first_settled := Ios;
     overtaking := 0 |}.

(** The same world with another schedule. *)
Definition scheduled (w : world) (first : platform) (k : nat) : world :=
  {| dirname := dirname w;
     cwd := cwd w;
     simulator := simulator w;
     RNCLIConfigValidator_run := RNCLIConfigValidator_run w;
     GenerateConfiguration_run := GenerateConfiguration_run w;
     validateDown := validateDown w;
     AsyncPackagerRunner_run := AsyncPackagerRunner_run w;
     IosRunner_run := IosRunner_run w;
     AndroidRunner_run := AndroidRunner_run w;
     first_settled := first;
     overtaking := k |}.

(** Both platforms requested; the iOS runner fails first, and the Android
    runner is still busy when [run] resumes. *)
Definition both_platforms : Args := sample_args true true false.

Definition ios_fails_first : world :=
  sample_world None None (Resolves true) (Killable None)
    (RunReturns (Settles (Rejected "device not found")))
    (RunReturns (Settles Fulfilled)).

(** Everything goes well. *)
Definition all_well : world :=
  sample_world None None (Resolves true) (Killable None)
    (RunReturns (Settles Fulfilled))
    (RunReturns (Settles Fulfilled)).

(** The validator rejects the configuration. *)
Definition invalid_config : world :=
  sample_world (Some "invalid react-native.config.js") None (Resolves true)
    (Killable None)
    (RunReturns (Settles Fulfilled))
    (RunReturns (Settles Fulfilled)).

(** Something already listens on the port. *)
Definition port_busy : world :=
  sample_world None None (Resolves false) (Killable None)
    (RunReturns (Settles Fulfilled))
    (RunReturns (Settles Fulfilled)).

(** ** Further vocabulary and sample runs *)

(** The path handed to the generator: [custom] when it is a non-empty
    string, the [package.json] of the working directory otherwise. *)
Definition chosen_config (custom : option string) (workdir : string)
  : string :=
  match custom with
  | None => workdir ++ "/package.json"
  | Some s => if String.eqb s "" then workdir ++ "/package.json" else s
  end.

(** No platform requested. *)
Definition no_platform : Args := sample_args false false false.

(** Both platforms requested, packager skipped ([-P]). *)
Definition both_skip_packager : Args := sample_args true true true.

(** The iOS runner throws as soon as it is called. *)
Definition ios_throws_at_once : world :=
  sample_world None None (Resolves true) (Killable None)
    (RunThrows "xcrun not found")
    (RunReturns (Settles Fulfilled)).

(** Both runners fail, iOS first; the Android promise is rejected after
    [run] has resumed. *)
Definition both_fail_apart : world :=
  sample_world None None (Resolves true) (Killable None)
    (RunReturns (Settles (Rejected "no simulator")))
    (RunReturns (Settles (Rejected "no device"))).

(** Both runners fail, Android first, and the iOS promise is rejected soon
    enough for its wrapper to resume before [run] does. *)
Definition both_fail_close : world := scheduled both_fail_apart Android 1.

(** The Android runner never finishes. *)
Definition android_hangs : world :=
  sample_world None None (Resolves true) (Killable None)
    (RunReturns (Settles Fulfilled))
    (RunReturns NeverSettles).

(** The probe of the port fails. *)
Definition probe_fails : world :=
  sample_world None None (RejectsWith "ECONNRESET") (Killable None)
    (RunReturns (Settles Fulfilled))
    (RunReturns (Settles Fulfilled)).

(* ================================================================== *)
(** * The event loop *)
(* ================================================================== *)

Lemma resume_wrapper_eq (b : platform * settlement) (s : handle) :
  resume_wrapper b s
  = mkResult (wrapper_events b) s (Normal (wrapper_rejection b)).
Proof. destruct b as [pf [| e]]; reflexivity. Qed.

Lemma resume_overtaking_eq (k : nat) (queue : list (platform * settlement))
      (s : handle) :
  resume_overtaking k queue s
  = mkResult (overtaking_events k queue) s (Normal tt).
Proof.
  revert queue. induction k as [| k IH]; intros [| b queue];
    try reflexivity.
  cbn [resume_overtaking]. unfold bind. rewrite resume_wrapper_eq.
  cbn [outcome store trace]. rewrite IH. reflexivity.
Qed.

Lemma event_loop_eq (k : nat) (queue : list (platform * settlement))
      (s : handle) :
  event_loop k queue s
  = mkResult (loop_events k queue) s
             (match loop_rejection queue with
              | Some e => Throw e
              | None => Normal tt
              end).
Proof.
  induction queue as [| b queue IH]; [reflexivity |].
  cbn [event_loop loop_events loop_rejection]. unfold bind at 1.
  rewrite resume_wrapper_eq. cbn [outcome store trace].
  destruct (wrapper_rejection b) as [e |].
  - unfold bind. rewrite resume_overtaking_eq. cbn [outcome store trace].
    unfold throw. cbn [outcome store trace]. now rewrite app_nil_r.
  - rewrite IH. reflexivity.
Qed.

(** [await Promise.all] in closed form. *)
Lemma await_Promise_all_eq (first : platform) (k : nat) (bs : list branch)
      (s : handle) :
  await_Promise_all first k bs s
  = mkResult (join_events first k bs) s (join_outcome first bs).
Proof.
  unfold await_Promise_all, join_events, join_outcome.
  destruct (first_rejected bs) as [e |]; unfold bind.
  - rewrite resume_overtaking_eq. cbn [outcome store trace]. unfold throw.
    cbn [outcome store trace]. now rewrite app_nil_r.
  - rewrite event_loop_eq. cbn [outcome store trace].
    destruct (loop_rejection (resume_queue first bs)) as [e |];
      [reflexivity |].
    destruct (existsb never_settles bs); cbn [outcome store trace];
      now rewrite app_nil_r.
Qed.

Lemma wrapper_events_class (b : platform * settlement) :
  forallb is_branch_event (wrapper_events b) = true.
Proof. destruct b as [[|] [| e]]; reflexivity. Qed.

Lemma flat_wrapper_events_class (queue : list (platform * settlement)) :
  forallb is_branch_event (flat_map wrapper_events queue) = true.
Proof.
  induction queue as [| b queue IH]; [reflexivity |].
  cbn [flat_map]. now rewrite forallb_app, wrapper_events_class, IH.
Qed.

Lemma loop_events_class (k : nat) (queue : list (platform * settlement)) :
  forallb is_branch_event (loop_events k queue) = true.
Proof.
  induction queue as [| b queue IH]; [reflexivity |].
  cbn [loop_events]. rewrite forallb_app, wrapper_events_class.
  destruct (wrapper_rejection b); [apply flat_wrapper_events_class | exact IH].
Qed.

(** The loop only emits the events of the wrappers. *)
Lemma join_events_class (first : platform) (k : nat) (bs : list branch) :
  forallb is_branch_event (join_events first k bs) = true.
Proof.
  unfold join_events. destruct (first_rejected bs);
    [apply flat_wrapper_events_class | apply loop_events_class].
Qed.

Lemma in_settling (bs : list branch) (pf : platform) (s : settlement) :
  In (pf, s) (settling bs) <-> In (Suspended pf (Settles s)) bs.
Proof.
  induction bs as [| [st | pf' [s' |]] bs IH]; cbn [settling In];
    [tauto | | | ]; rewrite IH; split; intros H;
    try (destruct H as [H | H]; [discriminate | tauto]); try tauto.
  - destruct H as [[= <- <-] | H]; auto.
  - destruct H as [[= <- <-] | H]; auto.
Qed.

Lemma in_resume_queue (first : platform) (bs : list branch)
      (b : platform * settlement) :
  In b (resume_queue first bs) <-> In b (settling bs).
Proof.
  unfold resume_queue. rewrite in_app_iff, !filter_In.
  destruct (platform_eqb (fst b) first); simpl; intuition discriminate.
Qed.

Lemma in_firstn {A : Type} (n : nat) (l : list A) (x : A) :
  In x (firstn n l) -> In x l.
Proof.
  revert l. induction n as [| n IH]; intros [| a l]; simpl; try tauto.
  intros [H | H]; auto.
Qed.




(** Whatever the loop throws is the rejection of one of the wrappers, whose
    events precede the throw. *)
Lemma loop_rejection_some (k : nat) (queue : list (platform * settlement))
      (e : error) :
  loop_rejection queue = Some e ->
  exists pf, In (pf, Rejected e) queue /\
             incl (wrapper_events (pf, Rejected e)) (loop_events k queue).
Proof.
  induction queue as [| [pf [| e']] queue IH]; cbn [loop_rejection];
    [discriminate | |].
  - cbn [wrapper_rejection snd]. intros H. destruct (IH H) as (pf' & Hin & Hi).
    exists pf'. split; [now right |]. cbn [loop_events]. now apply incl_appr.
  - cbn [wrapper_rejection snd]. intros [= ->]. exists pf.
    split; [now left |]. cbn [loop_events]. now apply incl_appl.
Qed.

(** A rejected wrapper in the queue makes the loop throw. *)
Lemma loop_rejection_in (queue : list (platform * settlement))
      (pf : platform) (e : error) :
  In (pf, Rejected e) queue -> loop_rejection queue <> None.
Proof.
  induction queue as [| [pf' [| e']] queue IH]; cbn [loop_rejection In];
    [tauto | |].
  - cbn [wrapper_rejection snd]. intros [[=] | H]. auto.
  - cbn [wrapper_rejection snd]. discriminate.
Qed.

(** Join: with no rejection every wrapper of the queue resumes. *)
Lemma loop_events_quiet (k : nat) (queue : list (platform * settlement)) :
  loop_rejection queue = None ->
  loop_events k queue = flat_map wrapper_events queue.
Proof.
  induction queue as [| b queue IH]; [reflexivity |].
  cbn [loop_rejection loop_events flat_map].
  destruct (wrapper_rejection b); [discriminate |].
  intros H. now rewrite IH.
Qed.

(* ================================================================== *)
(** * [run], segment by segment *)
(* ================================================================== *)

Ltac step_monad :=
  cbv beta iota zeta delta
    [bind may_throw PackagerWatcher_new Logger_info Logger_error emit ret
     throw process_exit await suspend_forever set_packagerProcess
     get_packagerProcess try_catch outcome store trace app negb
     branch_catch].

Lemma bind_normal {A B} (m : M A) (f : A -> M B) (s s' : handle)
      (tr : list event) (a : A) :
  m s = mkResult tr s' (Normal a) ->
  bind m f s
  = mkResult (tr ++ trace (f a s')) (store (f a s')) (outcome (f a s')).
Proof. intros H. unfold bind. rewrite H. reflexivity. Qed.

(** The gates: each way [gates] can end. *)
Lemma gates_eq (args : Args) (w : world) (s : handle) :
  gates args w s
  = match RNCLIConfigValidator_run w with
    | Some e => mkResult (firstn 2 (gate_events args w)) s (Throw e)
    | None =>
        match GenerateConfiguration_run w (generate_args args w) with
        | Some e => mkResult (firstn 4 (gate_events args w)) s (Throw e)
        | None =>
            match validateDown w (watcher_of args) with
            | Resolves true =>
                mkResult (gate_events args w) s (Normal (watcher_of args))
            | Resolves false =>
                mkResult (gate_events args w ++
                          [Log_error (port_in_use_message args) None;
                           Process_exit 1]) s (Exit 1)
            | RejectsWith e => mkResult (gate_events args w) s (Throw e)
            | StaysPending => mkResult (gate_events args w) s Pending
            end
        end
    end.
Proof.
  unfold gates, gate_events, watcher_of.
  destruct (RNCLIConfigValidator_run w) as [e |]; [reflexivity |].
  destruct (GenerateConfiguration_run w (generate_args args w)) as [e |];
    [reflexivity |].
  step_monad.
  destruct (validateDown w _) as [[|] | e |]; reflexivity.
Qed.

Lemma start_packager_eq (args : Args) (w : world) (s : handle) :
  start_packager args w (watcher_of args) s
  = mkResult (packager_events args w)
             (if no_packager args then s else spawned_handle args w)
             (Normal tt).
Proof.
  unfold start_packager, packager_events, spawned_handle.
  destruct (no_packager args); reflexivity.
Qed.

Lemma launch_ios_eq (args : Args) (w : world) (s : handle) :
  async_call Ios (ios_body args w (watcher_of args)) s
  = mkResult (launch_events args w Ios) s (Normal (branch_of args w Ios)).
Proof.
  unfold async_call, ios_body, launch_events, branch_of. simpl.
  destruct (run_ios args); [| reflexivity].
  step_monad. destruct (IosRunner_run w _ _ _ _ _) as [e | p]; reflexivity.
Qed.

Lemma launch_android_eq (args : Args) (w : world) (s : handle) :
  async_call Android (android_body args w (watcher_of args)) s
  = mkResult (launch_events args w Android) s
             (Normal (branch_of args w Android)).
Proof.
  unfold async_call, android_body, launch_events, branch_of. simpl.
  destruct (run_android args); [| reflexivity].
  step_monad. destruct (AndroidRunner_run w _ _ _ _) as [e | p]; reflexivity.
Qed.

Lemma fan_out_eq (args : Args) (w : world) :
  fan_out args w (watcher_of args) (retained_handle args w)
  = mkResult (Log_info "Running platform-specific tasks..." ::
              launch_events args w Ios ++ launch_events args w Android ++
              trace (join args w))
             (retained_handle args w) (outcome (join args w)).
Proof.
  unfold fan_out, join.
  erewrite bind_normal by reflexivity.
  erewrite bind_normal by apply launch_ios_eq.
  erewrite bind_normal by apply launch_android_eq.
  unfold branches. rewrite await_Promise_all_eq. reflexivity.
Qed.

Lemma try_block_eq (args : Args) (w : world) :
  try_block args w Undefined
  = match RNCLIConfigValidator_run w with
    | Some e => mkResult (firstn 2 (gate_events args w)) Undefined (Throw e)
    | None =>
        match GenerateConfiguration_run w (generate_args args w) with
        | Some e =>
            mkResult (firstn 4 (gate_events args w)) Undefined (Throw e)
        | None =>
            match validateDown w (watcher_of args) with
            | Resolves true =>
                mkResult (prelude args w ++ trace (join args w))
                         (retained_handle args w) (outcome (join args w))
            | Resolves false =>
                mkResult (gate_events args w ++
                          [Log_error (port_in_use_message args) None;
                           Process_exit 1]) Undefined (Exit 1)
            | RejectsWith e =>
                mkResult (gate_events args w) Undefined (Throw e)
            | StaysPending => mkResult (gate_events args w) Undefined Pending
            end
        end
    end.
Proof.
  unfold try_block. unfold bind at 1. rewrite gates_eq.
  destruct (RNCLIConfigValidator_run w) as [e |]; [reflexivity |].
  destruct (GenerateConfiguration_run w (generate_args args w)) as [e |];
    [reflexivity |].
  destruct (validateDown w (watcher_of args)) as [[|] | e |];
    try reflexivity.
  cbn [outcome store trace].
  rewrite (bind_normal _ _ _ _ _ _ (start_packager_eq args w Undefined)).
  fold (retained_handle args w). rewrite fan_out_eq.
  cbn [outcome store trace].
  unfold prelude.
  now repeat (rewrite <- ?app_assoc; rewrite <- ?app_comm_cons).
Qed.

Lemma catch_block_eq (ex : error) (h : handle) :
  catch_block ex h = mkResult (cleanup_events ex h) h (Exit 0).
Proof.
  unfold catch_block, stop_packager, cleanup_events.
  destruct h as [| | [killError |]]; reflexivity.
Qed.

(** [run] is its [try] block, followed by the [catch] block when the [try]
    block throws. *)
Lemma run_eq (args : Args) (w : world) :
  run args w
  = let r := try_block args w Undefined in
    match outcome r with
    | Throw e =>
        mkResult (trace r ++ cleanup_events e (store r)) (store r) (Exit 0)
    | _ => r
    end.
Proof.
  unfold run, try_catch. cbv zeta.
  destruct (outcome (try_block args w Undefined)) eqn:Ho; try reflexivity.
  now rewrite catch_block_eq.
Qed.

(** Every run, by the way it ends. *)
Lemma run_cases (args : Args) (w : world) :
  run args w
  = match RNCLIConfigValidator_run w with
    | Some e =>
        mkResult (firstn 2 (gate_events args w) ++ cleanup_events e Undefined)
                 Undefined (Exit 0)
    | None =>
        match GenerateConfiguration_run w (generate_args args w) with
        | Some e =>
            mkResult (firstn 4 (gate_events args w) ++
                      cleanup_events e Undefined) Undefined (Exit 0)
        | None =>
            match validateDown w (watcher_of args) with
            | Resolves true =>
                match outcome (join args w) with
                | Throw e =>
                    mkResult ((prelude args w ++ trace (join args w)) ++
                              cleanup_events e (retained_handle args w))
                             (retained_handle args w) (Exit 0)
                | o =>
                    mkResult (prelude args w ++ trace (join args w))
                             (retained_handle args w) o
                end
            | Resolves false =>
                mkResult (gate_events args w ++
                          [Log_error (port_in_use_message args) None;
                           Process_exit 1]) Undefined (Exit 1)
            | RejectsWith e =>
                mkResult (gate_events args w ++ cleanup_events e Undefined)
                         Undefined (Exit 0)
            | StaysPending => mkResult (gate_events args w) Undefined Pending
            end
        end
    end.
Proof.
  rewrite run_eq, try_block_eq. cbv zeta.
  destruct (RNCLIConfigValidator_run w) as [e |]; [reflexivity |].
  destruct (GenerateConfiguration_run w (generate_args args w)) as [e |];
    [reflexivity |].
  destruct (validateDown w (watcher_of args)) as [[|] | e |];
    try reflexivity.
  cbn [outcome store trace].
  destruct (outcome (join args w)) as [[] | e | c |]; reflexivity.
Qed.

(** The run where iOS fails first, event by event. *)
Example run_ios_fails_first :
  run both_platforms ios_fails_first
  = mkResult
      [Log_info "Validating React Native CLI configuration...";
       Validator_run;
       Log_info "Generating project configuration...";
       Generate_run (generate_args both_platforms ios_fails_first);
       Watcher_new "8081" false;
       Watcher_validateDown (watcher_of both_platforms);
       Watcher_startWatchingUntilUp (watcher_of both_platforms);
       Log_info "Starting Metro Bundler...";
       Packager_run (engineDir ios_fails_first) false "8081";
       Log_info "Running platform-specific tasks...";
       Ios_new {| ios_watcher := watcher_of both_platforms;
                  ir_devices := None; ir_udids := None |};
       Ios_run {| ios_watcher := watcher_of both_platforms;
                  ir_devices := None; ir_udids := None |}
               (engineDir ios_fails_first) "dev" false "simulator";
       Android_new {| android_watcher := watcher_of both_platforms |};
       Android_run {| android_watcher := watcher_of both_platforms |}
                   (engineDir ios_fails_first) "dev" false;
       Settled Ios (Rejected "device not found");
       Log_error "Error running iOS tasks:" (Some "device not found");
       Log_error "An error occurred:" (Some "device not found");
       Log_info "Stopping the Metro Bundler process...";
       Process_kill;
       Process_exit 0]
      (Killable None) (Exit 0).
Proof. vm_compute. reflexivity. Qed.

(** A run where both platforms complete: the iOS wrapper resumes, then the
    Android wrapper, and [run] returns. *)
Example run_all_well :
  outcome (run both_platforms all_well) = Normal tt /\
  filter is_settled (trace (run both_platforms all_well))
  = [Settled Ios Fulfilled; Settled Android Fulfilled].
Proof. vm_compute. split; reflexivity. Qed.

(** ** The join of this run *)

Lemma join_eq (args : Args) (w : world) :
  join args w
  = mkResult (join_events (first_settled w) (overtaking w) (branches args w))
             (retained_handle args w)
             (join_outcome (first_settled w) (branches args w)).
Proof. apply await_Promise_all_eq. Qed.

(** The join never leaves through [process.exit]. *)
Lemma join_no_exit (args : Args) (w : world) (c : Z) :
  outcome (join args w) <> Exit c.
Proof.
  rewrite join_eq. cbn [outcome]. unfold join_outcome.
  destruct (first_rejected (branches args w)); [discriminate |].
  destruct (loop_rejection _); [discriminate |].
  destruct (existsb never_settles (branches args w)); discriminate.
Qed.

Lemma join_class (args : Args) (w : world) :
  forallb is_branch_event (trace (join args w)) = true.
Proof. rewrite join_eq. apply join_events_class. Qed.

(** A predicate false on the events of the wrappers is false on the whole
    trace of the join. *)
Lemma join_avoids (args : Args) (w : world) (p : event -> bool) :
  (forall ev, is_branch_event ev = true -> p ev = false) ->
  filter p (trace (join args w)) = [].
Proof.
  intros Hp. pose proof (join_class args w) as Hc.
  induction (trace (join args w)) as [| ev tr IH]; [reflexivity |].
  simpl in Hc. apply andb_true_iff in Hc. destruct Hc as [Hev Htr].
  simpl. rewrite (Hp ev Hev). auto.
Qed.

(** Neither its events nor its outcome depend on [packagerProcess]. *)
Lemma join_with_kill (args : Args) (w : world) (k : option error) :
  trace (join args (with_kill w k)) = trace (join args w) /\
  outcome (join args (with_kill w k)) = outcome (join args w).
Proof. rewrite !join_eq. split; reflexivity. Qed.

(* ================================================================== *)
(** * Properties of the orchestration *)
(* ================================================================== *)

Lemma count_app (p : event -> bool) (a b : list event) :
  count p (a ++ b) = count p a + count p b.
Proof. unfold count. now rewrite filter_app, length_app. Qed.

Lemma existsb_count (p : event -> bool) (tr : list event) :
  existsb p tr = false <-> count p tr = 0.
Proof.
  unfold count. induction tr as [| ev tr IH]; simpl; [tauto |].
  destruct (p ev); simpl; [split; discriminate | exact IH].
Qed.

Lemma in_count (p : event -> bool) (ev : event) (tr : list event) :
  In ev tr -> p ev = true -> count p tr <> 0.
Proof.
  intros Hin Hp Hc. apply existsb_count in Hc.
  assert (existsb p tr = true) by (apply existsb_exists; eauto).
  congruence.
Qed.

Lemma join_count (args : Args) (w : world) (p : event -> bool) :
  (forall ev, is_branch_event ev = true -> p ev = false) ->
  count p (trace (join args w)) = 0.
Proof. intros H. unfold count. now rewrite join_avoids. Qed.

(** No event of a wrapper is one of the calls or of the cleanup. *)
Lemma branch_event_only (ev : event) :
  is_branch_event ev = true ->
  starts_process ev = false /\ is_packager_run ev = false /\
  is_watcher_new ev = false /\ is_start_watching ev = false /\
  is_kill ev = false /\ is_catch_entry ev = false /\ step_rank ev = None.
Proof.
  destruct ev as [| msg [e |] | | | | | | | | | | | | |]; simpl;
    try discriminate; try tauto.
  intros H. repeat split. apply orb_true_iff in H.
  destruct H as [H | H]; apply String.eqb_eq in H; subst msg; reflexivity.
Qed.

Ltac prelude_cases args w :=
  unfold prelude, gate_events, packager_events, launch_events, requested;
  destruct (no_packager args), (run_ios args), (run_android args);
  try destruct (runner_answer args w Ios);
  try destruct (runner_answer args w Android).

Lemma prelude_counts (args : Args) (w : world) :
  count is_kill (prelude args w) = 0 /\
  count is_catch_entry (prelude args w) = 0 /\
  count is_settled (prelude args w) = 0 /\
  count is_watcher_new (prelude args w) = 1 /\
  count is_start_watching (prelude args w) = 1 /\
  count is_packager_run (prelude args w)
  = (if no_packager args then 0 else 1).
Proof. prelude_cases args w; repeat split; reflexivity. Qed.

Lemma cleanup_counts (ex : error) (h : handle) :
  count is_catch_entry (cleanup_events ex h) = 1 /\
  count is_kill (cleanup_events ex h)
  = match h with Killable _ => 1 | _ => 0 end /\
  count is_settled (cleanup_events ex h) = 0 /\
  count is_watcher_new (cleanup_events ex h) = 0 /\
  count is_start_watching (cleanup_events ex h) = 0 /\
  count is_packager_run (cleanup_events ex h) = 0 /\
  count starts_process (cleanup_events ex h) = 0.
Proof. destruct h as [| | [k |]]; repeat split; reflexivity. Qed.

(** A run that passes the three gates: the prelude, the join, and the
    [catch] block if the join throws. *)
Lemma run_pass (args : Args) (w : world) :
  gates_pass args w ->
  run args w
  = match outcome (join args w) with
    | Throw e =>
        mkResult ((prelude args w ++ trace (join args w)) ++
                  cleanup_events e (retained_handle args w))
                 (retained_handle args w) (Exit 0)
    | o =>
        mkResult (prelude args w ++ trace (join args w))
                 (retained_handle args w) o
    end.
Proof.
  intros (Hv & Hg & Hd). rewrite run_cases, Hv, Hg, Hd. reflexivity.
Qed.

Lemma in_join (args : Args) (w : world) (ev : event) :
  In ev (trace (join args w)) -> is_branch_event ev = true.
Proof.
  intros Hin. pose proof (join_class args w) as Hc.
  rewrite forallb_forall in Hc. auto.
Qed.

(** Where an event of a passing run comes from. *)
Lemma in_run_pass (args : Args) (w : world) (ev : event) :
  gates_pass args w ->
  In ev (trace (run args w)) ->
  In ev (prelude args w) \/
  In ev (trace (join args w)) \/
  exists e, outcome (join args w) = Throw e /\
            outcome (run args w) = Exit 0 /\
            In ev (cleanup_events e (retained_handle args w)).
Proof.
  intros Hp. rewrite (run_pass args w Hp).
  destruct (outcome (join args w)) as [[] | e | c |] eqn:Hj;
    cbn [trace outcome]; rewrite ?in_app_iff; intros H;
    try tauto.
  destruct H as [[H | H] | H]; [tauto | tauto |].
  right; right. exists e. auto.
Qed.

Lemma prelude_in_run (args : Args) (w : world) (ev : event) :
  gates_pass args w -> In ev (prelude args w) -> In ev (trace (run args w)).
Proof.
  intros Hp Hin. rewrite (run_pass args w Hp).
  destruct (outcome (join args w)); cbn [trace]; rewrite ?in_app_iff; tauto.
Qed.


(** Counting in a passing run. *)
Lemma count_run_pass (args : Args) (w : world) (p : event -> bool) :
  gates_pass args w ->
  (forall ev, is_branch_event ev = true -> p ev = false) ->
  count p (trace (run args w))
  = count p (prelude args w)
    + match outcome (join args w) with
      | Throw e => count p (cleanup_events e (retained_handle args w))
      | _ => 0
      end.
Proof.
  intros Hp Hb. rewrite (run_pass args w Hp).
  destruct (outcome (join args w)); cbn [trace];
    rewrite ?count_app, (join_count args w p Hb); lia.
Qed.

(* ------------------------------------------------------------------ *)
(** ** The gates *)
(* ------------------------------------------------------------------ *)

(** C4.  When [validateDown] answers false, the run logs the port-in-use
    error and exits with status 1 at once: its trace is the events of the
    gates followed by that log and the exit, so the packager runner is never
    called, no platform runner is created or run, and neither the [catch]
    block nor [kill] is reached. *)
Theorem C4_port_in_use_exits_at_once (args : Args) (w : world) :
  RNCLIConfigValidator_run w = None ->
  GenerateConfiguration_run w (generate_args args w) = None ->
  validateDown w (watcher_of args) = Resolves false ->
  run args w
  = mkResult (gate_events args w ++
              [Log_error (port_in_use_message args) None; Process_exit 1])
             Undefined (Exit 1) /\
  existsb starts_process (trace (run args w)) = false /\
  existsb is_kill (trace (run args w)) = false /\
  existsb is_catch_entry (trace (run args w)) = false.
Proof.
  intros Hv Hg Hd. rewrite run_cases, Hv, Hg, Hd. repeat split.
Qed.

Lemma C4_port_in_use_witness :
  RNCLIConfigValidator_run port_busy = None /\
  outcome (run both_platforms port_busy) = Exit 1 /\
  existsb starts_process (trace (run both_platforms port_busy)) = false.
Proof.
  destruct (C4_port_in_use_exits_at_once both_platforms port_busy
              eq_refl eq_refl eq_refl) as (Hr & Hs & _).
  split; [reflexivity |]. split; [now rewrite Hr | exact Hs].
Defined.

(** C2, as the code has it.  When the validator or the generator throws, the
    run ends in the [catch] block with [process.exit(0)]: the status is 0,
    not a failure status.  Nothing was started and [kill] is not called. *)
Theorem C2_config_failure_exits_with_zero (args : Args) (w : world)
        (e : error) :
  RNCLIConfigValidator_run w = Some e \/
  (RNCLIConfigValidator_run w = None /\
   GenerateConfiguration_run w (generate_args args w) = Some e) ->
  outcome (run args w) = Exit 0 /\
  In (catch_entry e) (trace (run args w)) /\
  In (Log_info "No Metro Bundler process to stop.") (trace (run args w)) /\
  existsb is_kill (trace (run args w)) = false /\
  existsb starts_process (trace (run args w)) = false.
Proof.
  intros [Hv | [Hv Hg]]; rewrite run_cases, Hv; [| rewrite Hg];
    cbn [trace outcome]; repeat split; simpl; tauto.
Qed.

Lemma C2_config_failure_witness :
  RNCLIConfigValidator_run invalid_config
  = Some "invalid react-native.config.js" /\
  outcome (run both_platforms invalid_config) = Exit 0.
Proof.
  split; [reflexivity |].
  apply (C2_config_failure_exits_with_zero both_platforms invalid_config
           "invalid react-native.config.js").
  left. reflexivity.
Defined.

(* ------------------------------------------------------------------ *)
(** ** The [catch] block *)
(* ------------------------------------------------------------------ *)

Lemma count_pos (p : event -> bool) (tr : list event) :
  count p tr <> 0 -> exists ev, In ev tr /\ p ev = true.
Proof.
  intros H. destruct (existsb p tr) eqn:He.
  - apply existsb_exists in He. exact He.
  - apply existsb_count in He. contradiction.
Qed.

Lemma is_catch_entry_inv (ev : event) :
  is_catch_entry ev = true -> exists ex, ev = catch_entry ex.
Proof.
  destruct ev as [| msg [e |] | | | | | | | | | | | | |]; simpl;
    try discriminate.
  intros H. apply String.eqb_eq in H. subst msg. now exists e.
Qed.

(** The [catch] block is entered at most once, and exactly when the run ends
    with [process.exit(0)]. *)
Lemma catch_entry_count (args : Args) (w : world) :
  count is_catch_entry (trace (run args w))
  = match outcome (run args w) with Exit Z0 => 1 | _ => 0 end.
Proof.
  rewrite run_cases.
  destruct (RNCLIConfigValidator_run w) as [e |]; [reflexivity |].
  destruct (GenerateConfiguration_run w (generate_args args w)) as [e |];
    [reflexivity |].
  destruct (validateDown w (watcher_of args)) as [[|] | e |];
    try reflexivity.
  destruct (outcome (join args w)) as [[] | e | c |] eqn:Hj;
    cbn [trace outcome]; rewrite ?count_app;
    rewrite ?(proj1 (prelude_counts args w)),
            ?(proj1 (proj2 (prelude_counts args w)));
    rewrite ?(join_count args w is_catch_entry
                (fun ev H => proj1 (proj2 (proj2 (proj2 (proj2 (proj2
                   (branch_event_only ev H))))))));
    rewrite ?(proj1 (cleanup_counts _ _)); try reflexivity.
  now destruct (join_no_exit args w c).
Qed.

(** [kill] is requested at most once: exactly when the [catch] block runs
    with a killable handle in [packagerProcess]. *)
Lemma kill_count (args : Args) (w : world) :
  count is_kill (trace (run args w))
  = match outcome (run args w), store (run args w) with
    | Exit Z0, Killable _ => 1
    | _, _ => 0
    end.
Proof.
  rewrite run_cases.
  destruct (RNCLIConfigValidator_run w) as [e |]; [reflexivity |].
  destruct (GenerateConfiguration_run w (generate_args args w)) as [e |];
    [reflexivity |].
  destruct (validateDown w (watcher_of args)) as [[|] | e |];
    try reflexivity.
  destruct (outcome (join args w)) as [[] | e | c |] eqn:Hj;
    cbn [trace outcome store]; rewrite ?count_app;
    rewrite ?(proj1 (prelude_counts args w));
    rewrite ?(join_count args w is_kill
                (fun ev H => proj1 (proj2 (proj2 (proj2 (proj2
                   (branch_event_only ev H)))))));
    rewrite ?(proj1 (proj2 (cleanup_counts _ _))); try reflexivity.
  now destruct (join_no_exit args w c).
Qed.

Lemma caught_exits_zero (args : Args) (w : world) :
  caught (trace (run args w)) <-> outcome (run args w) = Exit 0.
Proof.
  pose proof (catch_entry_count args w) as Hc. split.
  - intros [ex Hin].
    assert (count is_catch_entry (trace (run args w)) <> 0) as Hne
        by (eapply in_count; [exact Hin | reflexivity]).
    destruct (outcome (run args w)) as [[] | e | [| c | c] |];
      try reflexivity; congruence.
  - intros Ho. rewrite Ho in Hc.
    destruct (count_pos is_catch_entry (trace (run args w)))
      as (ev & Hin & Hev); [lia |].
    destruct (is_catch_entry_inv ev Hev) as [ex ->]. now exists ex.
Qed.

(** What [packagerProcess] holds when the run ends. *)
Lemma store_run (args : Args) (w : world) :
  store (run args w) = Undefined \/
  (gates_pass args w /\ store (run args w) = retained_handle args w).
Proof.
  rewrite run_cases. unfold gates_pass.
  destruct (RNCLIConfigValidator_run w) as [e |]; [now left |].
  destruct (GenerateConfiguration_run w (generate_args args w)) as [e |];
    [now left |].
  destruct (validateDown w (watcher_of args)) as [[|] | e |];
    try (now left).
  right. destruct (outcome (join args w)); auto.
Qed.

Lemma outcome_with_kill (args : Args) (w : world) (k : option error) :
  outcome (run args (with_kill w k)) = outcome (run args w).
Proof.
  rewrite !run_cases.
  change (RNCLIConfigValidator_run (with_kill w k))
    with (RNCLIConfigValidator_run w).
  change (GenerateConfiguration_run (with_kill w k)
            (generate_args args (with_kill w k)))
    with (GenerateConfiguration_run w (generate_args args w)).
  change (validateDown (with_kill w k)) with (validateDown w).
  destruct (RNCLIConfigValidator_run w) as [e |]; [reflexivity |].
  destruct (GenerateConfiguration_run w (generate_args args w)) as [e |];
    [reflexivity |].
  destruct (validateDown w (watcher_of args)) as [[|] | e |];
    try reflexivity.
  rewrite (proj2 (join_with_kill args w k)).
  destruct (outcome (join args w)); reflexivity.
Qed.

(** The trace of a run that entered the [catch] block ends with the events
    of that block. *)
Lemma caught_trace (args : Args) (w : world) :
  outcome (run args w) = Exit 0 ->
  exists before ex,
    trace (run args w)
    = before ++ cleanup_events ex (store (run args w)).
Proof.
  rewrite run_cases.
  destruct (RNCLIConfigValidator_run w) as [e |];
    [intros _; cbn [trace store]; eauto |].
  destruct (GenerateConfiguration_run w (generate_args args w)) as [e |];
    [intros _; cbn [trace store]; eauto |].
  destruct (validateDown w (watcher_of args)) as [[|] | e |];
    cbn [outcome]; try discriminate;
    [| intros _; cbn [trace store]; eauto].
  destruct (outcome (join args w)) as [[] | e | c |] eqn:Hj;
    cbn [trace outcome store]; try discriminate; [intros _; eauto |].
  now destruct (join_no_exit args w c).
Qed.

(** No error leaves [run]. *)
Lemma run_does_not_throw (args : Args) (w : world) (e : error) :
  outcome (run args w) <> Throw e.
Proof.
  rewrite run_eq. cbv zeta.
  destruct (outcome (try_block args w Undefined)) as [[] | e' | c |] eqn:Ho;
    try rewrite Ho; discriminate.
Qed.

(** C10.  [run] never rejects: whatever its arguments and whatever its
    collaborators do, the promise it returns is never rejected.  An error
    thrown in the [try] block is caught by the one [catch] block, which logs
    it, stops the packager as far as it can, and exits the process. *)
Theorem C10_run_never_rejects (args : Args) (w : world) :
  (forall e, outcome (run args w) <> Throw e) /\
  (forall e,
      outcome (try_block args w Undefined) = Throw e ->
      run args w
      = mkResult (trace (try_block args w Undefined) ++
                  cleanup_events e (store (try_block args w Undefined)))
                 (store (try_block args w Undefined)) (Exit 0)).
Proof.
  split; [apply run_does_not_throw |].
  intros e He. rewrite run_eq. cbv zeta. rewrite He. reflexivity.
Qed.

(** C6.  [kill] is requested only in the [catch] block and only on a handle
    that exists and has a [kill] function, which then is the handle the
    packager runner returned; it is requested at most once.  When [kill]
    itself throws, the error is logged and the run still ends with the same
    outcome as with a [kill] that returns.  Whatever [packagerProcess] holds
    (nothing, a value without [kill], a process that refuses the signal), a
    run that reaches the [catch] block ends by [process.exit(0)] and never
    by an error leaving [run]. *)
Theorem C6_cleanup_is_guarded (args : Args) (w : world) :
  (In Process_kill (trace (run args w)) ->
   caught (trace (run args w)) /\
   no_packager args = false /\
   exists k, spawned_handle args w = Killable k /\
             store (run args w) = Killable k) /\
  (caught (trace (run args w)) ->
   forall k, store (run args w) = Killable k ->
             In Process_kill (trace (run args w))) /\
  (caught (trace (run args w)) ->
   forall killError,
     store (run args w) = Killable (Some killError) ->
     In (Log_error "Failed to stop the Metro Bundler process:"
                   (Some killError)) (trace (run args w))) /\
  (forall k k',
      outcome (run args (with_kill w k))
      = outcome (run args (with_kill w k'))) /\
  (caught (trace (run args w)) -> outcome (run args w) = Exit 0) /\
  (forall e, outcome (run args w) <> Throw e) /\
  count is_kill (trace (run args w)) <= 1.
Proof.
  pose proof (kill_count args w) as Hk.
  repeat split.
  - apply caught_exits_zero.
    assert (count is_kill (trace (run args w)) <> 0) as Hne
        by (eapply in_count; [exact H | reflexivity]).
    destruct (outcome (run args w)) as [[] | e | [| c | c] |];
      try reflexivity; congruence.
  - assert (count is_kill (trace (run args w)) <> 0) as Hne
        by (eapply in_count; [exact H | reflexivity]).
    destruct (store_run args w) as [Hs | [_ Hs]].
    + rewrite Hs in Hk. destruct (outcome (run args w)) as [| | [| |] |];
        congruence.
    + unfold retained_handle in Hs. destruct (no_packager args);
        [| reflexivity].
      rewrite Hs in Hk. destruct (outcome (run args w)) as [| | [| |] |];
        congruence.
  - assert (count is_kill (trace (run args w)) <> 0) as Hne
        by (eapply in_count; [exact H | reflexivity]).
    destruct (store (run args w)) as [| | k] eqn:Hst;
      try (destruct (outcome (run args w)) as [| | [| |] |]; congruence).
    exists k. split; [| reflexivity].
    destruct (store_run args w) as [Hs | [_ Hs]]; [congruence |].
    unfold retained_handle in Hs. destruct (no_packager args); congruence.
  - intros Hc k Hst. apply caught_exits_zero in Hc.
    destruct (caught_trace args w Hc) as (before & ex & Htr).
    rewrite Htr, Hst. apply in_or_app. right. simpl. tauto.
  - intros Hc killError Hst. apply caught_exits_zero in Hc.
    destruct (caught_trace args w Hc) as (before & ex & Htr).
    rewrite Htr, Hst. apply in_or_app. right. simpl. tauto.
  - intros k k'. now rewrite !outcome_with_kill.
  - apply caught_exits_zero.
  - apply run_does_not_throw.
  - rewrite Hk. destruct (outcome (run args w)) as [| | [| |] |];
      try lia. destruct (store (run args w)); lia.
Qed.

(* ------------------------------------------------------------------ *)
(** ** Watcher and packager *)
(* ------------------------------------------------------------------ *)

Lemma branch_event_only_settled (ev : event) :
  is_branch_event ev = true ->
  is_watcher_new ev = false /\ is_start_watching ev = false /\
  is_packager_run ev = false.
Proof.
  intros H. destruct (branch_event_only ev H) as (_ & H1 & H2 & H3 & _).
  auto.
Qed.

Lemma count_outside_cleanup (args : Args) (w : world) (p : event -> bool) :
  gates_pass args w ->
  (forall ev, is_branch_event ev = true -> p ev = false) ->
  (forall ex h, count p (cleanup_events ex h) = 0) ->
  count p (trace (run args w)) = count p (prelude args w).
Proof.
  intros Hp Hb Hc. rewrite (count_run_pass args w p Hp Hb).
  destruct (outcome (join args w)); rewrite ?Hc; lia.
Qed.

(** C9.  In every run that passes the port gate, one watcher is built, from
    the port and the [no_packager] flag of the arguments, and its
    [startWatchingUntilUp] is called once, whether [no_packager] is set or
    not. *)
Theorem C9_watcher_always_started (args : Args) (w : world) :
  gates_pass args w ->
  In (Watcher_new (packager_port args) (no_packager args))
     (trace (run args w)) /\
  count is_watcher_new (trace (run args w)) = 1 /\
  In (Watcher_startWatchingUntilUp
        {| w_port := packager_port args;
           w_no_packager := no_packager args |})
     (trace (run args w)) /\
  count is_start_watching (trace (run args w)) = 1.
Proof.
  intros Hp.
  pose proof (prelude_counts args w) as (_ & _ & _ & Hn & Hs & _).
  repeat split.
  - apply prelude_in_run; [assumption |].
    unfold prelude, gate_events. simpl. tauto.
  - rewrite count_outside_cleanup; auto.
    + intros ev H. apply branch_event_only_settled, H.
    + intros ex h. apply cleanup_counts.
  - apply prelude_in_run; [assumption |].
    unfold prelude, packager_events, watcher_of.
    apply in_or_app. right. simpl. tauto.
  - rewrite count_outside_cleanup; auto.
    + intros ev H. apply branch_event_only_settled, H.
    + intros ex h. apply cleanup_counts.
Qed.

Lemma C9_watcher_witness :
  gates_pass (sample_args false true true) all_well /\
  count is_start_watching (trace (run (sample_args false true true) all_well))
  = 1.
Proof.
  assert (gates_pass (sample_args false true true) all_well) as Hp
      by (repeat split).
  split; [exact Hp |].
  apply (C9_watcher_always_started (sample_args false true true) all_well Hp).
Defined.

Lemma prelude_packager_run (args : Args) (w : world) (d : string) (c : bool)
      (p : string) :
  In (Packager_run d c p) (prelude args w) ->
  no_packager args = false /\ d = engineDir w /\ c = reset_cache args /\
  p = packager_port args.
Proof.
  prelude_cases args w; simpl; intros H;
    repeat match goal with
           | H : _ \/ _ |- _ => destruct H as [H | H]
           end;
    try discriminate; try contradiction;
    injection H as <- <- <-; auto.
Qed.

(** C5.  In every run that passes the port gate, the packager runner is
    called if and only if [no_packager] is not set; the call is made once,
    with the engine directory, the cache-reset flag and the port of the
    arguments, and [packagerProcess] keeps what it returns.  With
    [no_packager] set the runner is never called and [packagerProcess] stays
    undefined. *)
Theorem C5_packager_started_unless_skipped (args : Args) (w : world) :
  gates_pass args w ->
  ((exists d c p, In (Packager_run d c p) (trace (run args w)))
   <-> no_packager args = false) /\
  (forall d c p,
      In (Packager_run d c p) (trace (run args w)) ->
      d = engineDir w /\ c = reset_cache args /\ p = packager_port args) /\
  count is_packager_run (trace (run args w))
  = (if no_packager args then 0 else 1) /\
  store (run args w)
  = (if no_packager args then Undefined
     else AsyncPackagerRunner_run w (engineDir w) (reset_cache args)
                                  (packager_port args)).
Proof.
  intros Hp.
  assert (forall d c p,
             In (Packager_run d c p) (trace (run args w)) ->
             In (Packager_run d c p) (prelude args w)) as Hin.
  { intros d c p H. destruct (in_run_pass args w _ Hp H) as [H' | [H' | H']].
    - exact H'.
    - apply in_join in H'. discriminate.
    - destruct H' as (e & _ & _ & H').
      destruct (retained_handle args w) as [| | [k |]]; simpl in H';
        repeat match goal with
               | H : _ \/ _ |- _ => destruct H as [H | H]
               end; try discriminate; contradiction. }
  repeat split.
  - intros (d & c & p & H). apply Hin, prelude_packager_run in H. tauto.
  - intros Hn. exists (engineDir w), (reset_cache args), (packager_port args).
    apply prelude_in_run; [assumption |].
    unfold prelude, packager_events. rewrite Hn.
    apply in_or_app. right. simpl. tauto.
  - apply Hin, prelude_packager_run in H. tauto.
  - apply Hin, prelude_packager_run in H. tauto.
  - apply Hin, prelude_packager_run in H. tauto.
  - rewrite count_outside_cleanup; auto.
    + apply prelude_counts.
    + intros ev H. apply branch_event_only_settled, H.
    + intros ex h. apply cleanup_counts.
  - rewrite (run_pass args w Hp).
    destruct (outcome (join args w)); reflexivity.
Qed.

Lemma C5_packager_witness :
  gates_pass both_platforms all_well /\
  count is_packager_run (trace (run both_platforms all_well)) = 1 /\
  store (run both_platforms all_well) = Killable None.
Proof.
  assert (gates_pass both_platforms all_well) as Hp by (repeat split).
  split; [exact Hp |].
  destruct (C5_packager_started_unless_skipped both_platforms all_well Hp)
    as (_ & _ & Hc & Hs).
  split; [exact Hc | exact Hs].
Defined.

(* ------------------------------------------------------------------ *)
(** ** The wrappers of this run *)
(* ------------------------------------------------------------------ *)

Lemma launched_branch (args : Args) (w : world) (pf : platform)
      (p : promise) :
  launched args w pf p -> branch_of args w pf = Suspended pf p.
Proof. intros [Hr Ha]. unfold branch_of. now rewrite Hr, Ha. Qed.

Lemma branch_of_suspended (args : Args) (w : world) (pf pf' : platform)
      (p : promise) :
  branch_of args w pf = Suspended pf' p -> pf' = pf /\ launched args w pf p.
Proof.
  unfold branch_of, launched.
  destruct (requested args pf); [| discriminate].
  destruct (runner_answer args w pf); [discriminate |].
  intros [= <- <-]. auto.
Qed.

Lemma branch_of_rejected (args : Args) (w : world) (pf : platform)
      (e : error) :
  branch_of args w pf = Finished (Rejected e) ->
  requested args pf = true /\ runner_answer args w pf = RunThrows e.
Proof.
  unfold branch_of.
  destruct (requested args pf); [| discriminate].
  destruct (runner_answer args w pf); [| discriminate].
  intros [= <-]. auto.
Qed.

Lemma in_branches (args : Args) (w : world) (b : branch) :
  In b (branches args w) <-> exists pf, b = branch_of args w pf.
Proof.
  unfold branches. simpl. split.
  - intros [<- | [<- | []]]; eauto.
  - intros [[|] ->]; auto.
Qed.

Lemma launched_once (args : Args) (w : world) (pf : platform)
      (p p' : promise) :
  launched args w pf p -> launched args w pf p' -> p = p'.
Proof. intros [_ H] [_ H']. congruence. Qed.


(** The wrappers that resume are those of the launched platforms whose
    promise settles. *)
Lemma in_queue (args : Args) (w : world) (first : platform) (pf : platform)
      (s : settlement) :
  In (pf, s) (resume_queue first (branches args w)) <->
  launched args w pf (Settles s).
Proof.
  rewrite in_resume_queue, in_settling, in_branches. split.
  - intros [pf' H]. symmetry in H.
    now destruct (branch_of_suspended _ _ _ _ _ H) as [-> Hl].
  - intros Hl. exists pf. symmetry. now apply launched_branch.
Qed.

Lemma first_rejected_some (bs : list branch) (e : error) :
  first_rejected bs = Some e -> In (Finished (Rejected e)) bs.
Proof.
  induction bs as [| [[| e'] | pf p] bs IH]; simpl; try discriminate; auto.
  intros [= ->]. auto.
Qed.

Lemma first_rejected_in (bs : list branch) (e : error) :
  In (Finished (Rejected e)) bs -> first_rejected bs <> None.
Proof.
  induction bs as [| [[| e'] | pf p] bs IH]; simpl; try tauto;
    try discriminate; intros [[=] | H]; auto.
Qed.

Lemma fails_branch (args : Args) (w : world) (pf : platform) (e : error) :
  fails args w pf e <->
  branch_of args w pf = Finished (Rejected e) \/
  branch_of args w pf = Suspended pf (Settles (Rejected e)).
Proof.
  unfold fails, branch_of. split.
  - intros [-> [-> | ->]]; auto.
  - destruct (requested args pf).
    + destruct (runner_answer args w pf) as [e' | p].
      * intros [[= ->] | [=]]. auto.
      * intros [[=] | [= ->]]. auto.
    + intros [[=] | [=]].
Qed.


Lemma never_settles_launched (args : Args) (w : world) :
  existsb never_settles (branches args w) = true <->
  exists pf, launched args w pf NeverSettles.
Proof.
  rewrite existsb_exists. split.
  - intros (b & Hin & Hb). apply in_branches in Hin. destruct Hin as [pf ->].
    destruct (branch_of args w pf) as [st | pf' [s |]] eqn:Hbr;
      try discriminate.
    apply branch_of_suspended in Hbr. destruct Hbr as [_ Hl]. eauto.
  - intros [pf Hl]. exists (Suspended pf NeverSettles). split; [| reflexivity].
    apply in_branches. exists pf. symmetry. now apply launched_branch.
Qed.

Lemma succeeds_no_failure (args : Args) (w : world) :
  succeeds args w Ios -> succeeds args w Android ->
  forall pf e, ~ fails args w pf e.
Proof.
  intros Hi Ha pf e [Hr Hf].
  assert (succeeds args w pf) as Hs by (destruct pf; assumption).
  rewrite (Hs Hr) in Hf. destruct Hf as [[=] | [=]].
Qed.

(** A requested platform either fails, or never settles, or completes. *)
Lemma platform_cases (args : Args) (w : world) (pf : platform) :
  (exists e, fails args w pf e) \/
  launched args w pf NeverSettles \/
  succeeds args w pf.
Proof.
  unfold fails, launched, succeeds.
  destruct (requested args pf); [| right; right; discriminate].
  destruct (runner_answer args w pf) as [e | [[| e] |]]; eauto 8.
Qed.

(** ** How the join ends *)

(** With no failing runner every wrapper of the queue resumes; the [await]
    of line 106 returns unless a launched runner never settles. *)
Lemma join_no_failure (args : Args) (w : world) :
  (forall pf e, ~ fails args w pf e) ->
  join args w
  = mkResult (flat_map wrapper_events
                       (resume_queue (first_settled w) (branches args w)))
             (retained_handle args w)
             (if existsb never_settles (branches args w) then Pending
              else Normal tt).
Proof.
  intros Hnf. rewrite join_eq. unfold join_events, join_outcome.
  assert (first_rejected (branches args w) = None) as ->.
  { destruct (first_rejected (branches args w)) as [e |] eqn:Hfr;
      [| reflexivity].
    apply first_rejected_some, in_branches in Hfr. destruct Hfr as [pf Hb].
    destruct (Hnf pf e). apply fails_branch. auto. }
  assert (loop_rejection (resume_queue (first_settled w) (branches args w))
          = None) as Hq.
  { destruct (loop_rejection _) as [e |] eqn:Hr; [| reflexivity].
    apply (loop_rejection_some 0) in Hr. destruct Hr as (pf & Hin & _).
    apply in_queue in Hin. destruct (Hnf pf e).
    apply fails_branch. right. now apply launched_branch. }
  now rewrite Hq, (loop_events_quiet _ _ Hq).
Qed.

(** Join: when every requested platform completes without error, the
    [await] resumes normally. *)
Lemma join_all_fulfil (args : Args) (w : world) :
  succeeds args w Ios -> succeeds args w Android ->
  outcome (join args w) = Normal tt.
Proof.
  intros Hi Ha.
  rewrite (join_no_failure args w (succeeds_no_failure args w Hi Ha)).
  cbn [outcome].
  destruct (existsb never_settles (branches args w)) eqn:Hn;
    [| reflexivity].
  apply never_settles_launched in Hn. destruct Hn as [pf [Hr Hl]].
  assert (succeeds args w pf) as Hs by (destruct pf; assumption).
  rewrite (Hs Hr) in Hl. discriminate.
Qed.

(** A failing runner makes the [await] of line 106 throw. *)
Lemma join_throws (args : Args) (w : world) (pf : platform) (e : error) :
  fails args w pf e -> exists ex, outcome (join args w) = Throw ex.
Proof.
  intros Hf. apply fails_branch in Hf. rewrite join_eq. cbn [outcome].
  unfold join_outcome.
  destruct (first_rejected (branches args w)) as [ex |] eqn:Hfr; [eauto |].
  destruct Hf as [Hb | Hb].
  - exfalso. apply (first_rejected_in (branches args w) e); [| exact Hfr].
    apply in_branches. eauto.
  - destruct (loop_rejection _) as [ex |] eqn:Hr; [eauto |].
    exfalso. revert Hr. apply (loop_rejection_in _ pf e).
    apply in_queue. apply (branch_of_suspended _ _ _ _ _ Hb).
Qed.

(** The error the [await] throws comes from a failing runner, whose wrapper
    has logged it before. *)
Lemma join_throws_logged (args : Args) (w : world) (ex : error) :
  outcome (join args w) = Throw ex ->
  exists pf, fails args w pf ex /\
             In (Log_error (branch_label pf) (Some ex))
                (prelude args w ++ trace (join args w)).
Proof.
  rewrite join_eq. cbn [outcome trace]. unfold join_outcome, join_events.
  destruct (first_rejected (branches args w)) as [e |] eqn:Hfr.
  - intros [= ->].
    apply first_rejected_some, in_branches in Hfr. destruct Hfr as [pf Hb].
    symmetry in Hb. exists pf. split; [apply fails_branch; auto |].
    apply branch_of_rejected in Hb. destruct Hb as [Hr Ha].
    apply in_or_app. left. unfold prelude.
    apply in_or_app. right. apply in_or_app. right. right.
    destruct pf; [apply in_or_app; left | apply in_or_app; right];
      unfold launch_events; rewrite Hr, Ha; apply in_or_app; right;
      simpl; auto.
  - destruct (loop_rejection _) as [e |] eqn:Hr;
      [| destruct (existsb never_settles _); discriminate].
    intros [= ->].
    apply (loop_rejection_some (overtaking w)) in Hr.
    destruct Hr as (pf & Hin & Hi). apply in_queue in Hin.
    exists pf. split.
    + apply fails_branch. right. now apply launched_branch.
    + apply in_or_app. right. apply Hi. simpl. auto.
Qed.

Lemma join_normal (args : Args) (w : world) :
  outcome (join args w) = Normal tt <->
  succeeds args w Ios /\ succeeds args w Android.
Proof.
  split.
  - intros Ho.
    assert (forall pf e, ~ fails args w pf e) as Hnf.
    { intros pf e Hf. destruct (join_throws args w pf e Hf) as [ex Hj].
      congruence. }
    rewrite (join_no_failure args w Hnf) in Ho. cbn [outcome] in Ho.
    assert (forall pf, succeeds args w pf) as Hs; [| now split].
    intros pf. destruct (platform_cases args w pf) as [[e Hf] | [Hl | Hs]];
      [now destruct (Hnf pf e) | | exact Hs].
    assert (existsb never_settles (branches args w) = true) as Hn
        by (apply never_settles_launched; eauto).
    rewrite Hn in Ho. discriminate.
  - intros [Hi Ha]. now apply join_all_fulfil.
Qed.

Lemma join_pending (args : Args) (w : world) :
  outcome (join args w) = Pending <->
  (forall pf e, ~ fails args w pf e) /\
  exists pf, launched args w pf NeverSettles.
Proof.
  split.
  - intros Ho.
    assert (forall pf e, ~ fails args w pf e) as Hnf.
    { intros pf e Hf. destruct (join_throws args w pf e Hf) as [ex Hj].
      congruence. }
    split; [exact Hnf |]. apply never_settles_launched.
    rewrite (join_no_failure args w Hnf) in Ho. cbn [outcome] in Ho.
    destruct (existsb never_settles (branches args w));
      [reflexivity | discriminate].
  - intros [Hnf Hl]. rewrite (join_no_failure args w Hnf). cbn [outcome].
    apply never_settles_launched in Hl. now rewrite Hl.
Qed.

Lemma join_throw_iff (args : Args) (w : world) :
  (exists ex, outcome (join args w) = Throw ex) <->
  exists pf e, fails args w pf e.
Proof.
  split.
  - intros [ex Hj]. destruct (join_throws_logged args w ex Hj) as (pf & Hf & _).
    eauto.
  - intros (pf & e & Hf). eapply join_throws, Hf.
Qed.

(* ------------------------------------------------------------------ *)
(** ** Exit status *)
(* ------------------------------------------------------------------ *)

(** C3.  The status of the process is 0 when the run succeeds ([run]
    returns without calling [process.exit]) and 0 again whenever the [catch]
    block is reached; it is 1 exactly when the two configuration gates pass
    and [validateDown] answers false.  No other status is ever produced. *)
Theorem C3_exit_codes (args : Args) (w : world) :
  (gates_pass args w -> succeeds args w Ios -> succeeds args w Android ->
   outcome (run args w) = Normal tt /\
   exit_code (outcome (run args w)) = Some 0%Z /\
   count is_catch_entry (trace (run args w)) = 0) /\
  (caught (trace (run args w)) ->
   outcome (run args w) = Exit 0 /\
   exit_code (outcome (run args w)) = Some 0%Z) /\
  (outcome (run args w) = Exit 1 <->
   RNCLIConfigValidator_run w = None /\
   GenerateConfiguration_run w (generate_args args w) = None /\
   validateDown w (watcher_of args) = Resolves false) /\
  (forall c, outcome (run args w) = Exit c -> c = 0%Z \/ c = 1%Z) /\
  (forall c, In (Process_exit c) (trace (run args w)) ->
             outcome (run args w) = Exit c).
Proof.
  split; [| split; [| split; [| split]]].
  - intros Hp Hi Ha.
    assert (outcome (run args w) = Normal tt) as Ho.
    { rewrite (run_pass args w Hp), (join_all_fulfil args w Hi Ha).
      reflexivity. }
    rewrite catch_entry_count, Ho. auto.
  - intros Hc. apply caught_exits_zero in Hc. now rewrite Hc.
  - rewrite run_cases.
    destruct (RNCLIConfigValidator_run w) as [e |];
      [split; [discriminate | intros (H & _); discriminate] |].
    destruct (GenerateConfiguration_run w (generate_args args w)) as [e |];
      [split; [discriminate | intros (_ & H & _); discriminate] |].
    destruct (validateDown w (watcher_of args)) as [[|] | e |];
      try (split; [discriminate | intros (_ & _ & H); discriminate]);
      [| tauto].
    destruct (outcome (join args w)) as [[] | e | c |] eqn:Hj;
      try (split; [discriminate | intros (_ & _ & H); discriminate]).
    now destruct (join_no_exit args w c).
  - intros c. rewrite run_cases.
    destruct (RNCLIConfigValidator_run w) as [e |];
      [intros [= <-]; auto |].
    destruct (GenerateConfiguration_run w (generate_args args w)) as [e |];
      [intros [= <-]; auto |].
    destruct (validateDown w (watcher_of args)) as [[|] | e |];
      try (intros [= <-]; auto); try discriminate.
    destruct (outcome (join args w)) as [[] | e | c' |] eqn:Hj;
      try (intros [= <-]; auto); try discriminate.
    now destruct (join_no_exit args w c').
  - intros c. rewrite run_cases.
    destruct (RNCLIConfigValidator_run w) as [e |];
      [cbn; unfold catch_entry; intuition congruence |].
    destruct (GenerateConfiguration_run w (generate_args args w)) as [e |];
      [cbn; unfold catch_entry; intuition congruence |].
    destruct (validateDown w (watcher_of args)) as [[|] | e |];
      try (cbn; unfold catch_entry; intuition congruence).
    assert (forall tr, In (Process_exit c) (prelude args w ++ tr) ->
                       In (Process_exit c) tr) as Hpre.
    { intros tr H. apply in_app_or in H. destruct H as [H | H]; [| exact H].
      exfalso. revert H. prelude_cases args w; cbn; intuition discriminate. }
    destruct (outcome (join args w)) as [[] | e | c' |] eqn:Hj;
      cbn [trace outcome]; rewrite <- ?app_assoc; intros H; apply Hpre in H;
      try (apply in_join in H; discriminate).
    + apply in_app_or in H. destruct H as [H | H];
        [apply in_join in H; discriminate |].
      destruct (retained_handle args w) as [| | [k |]]; cbn in H;
        unfold catch_entry in H; intuition congruence.
Qed.

(* ------------------------------------------------------------------ *)
(** ** Order of the steps *)
(* ------------------------------------------------------------------ *)

Lemma steps_app (a b : list event) : steps (a ++ b) = steps a ++ steps b.
Proof.
  induction a as [| ev a IH]; simpl; [reflexivity |].
  destruct (step_rank ev); simpl; now rewrite IH.
Qed.

Lemma steps_join (args : Args) (w : world) : steps (trace (join args w)) = [].
Proof.
  pose proof (join_class args w) as Hc.
  induction (trace (join args w)) as [| ev tr IH]; [reflexivity |].
  simpl in Hc. apply andb_true_iff in Hc. destruct Hc as [Hev Htr].
  simpl. destruct (branch_event_only ev Hev) as (_ & _ & _ & _ & _ & _ & ->).
  auto.
Qed.

Lemma steps_cleanup (ex : error) (h : handle) :
  steps (cleanup_events ex h) = [].
Proof. destruct h as [| | [k |]]; reflexivity. Qed.

Lemma steps_prelude (args : Args) (w : world) :
  steps (prelude args w)
  = [0; 1; 2; 3] ++ (if no_packager args then [] else [4]) ++
    (if run_ios args then [5; 6] else []) ++
    (if run_android args then [7; 8] else []).
Proof. prelude_cases args w; reflexivity. Qed.

(** The steps of a run, by the gate that stops it. *)
Lemma steps_run (args : Args) (w : world) :
  steps (trace (run args w))
  = match RNCLIConfigValidator_run w with
    | Some _ => [0]
    | None =>
        match GenerateConfiguration_run w (generate_args args w) with
        | Some _ => [0; 1]
        | None =>
            match validateDown w (watcher_of args) with
            | Resolves true => steps (prelude args w)
            | _ => [0; 1; 2]
            end
        end
    end.
Proof.
  rewrite run_cases.
  destruct (RNCLIConfigValidator_run w) as [e |]; [reflexivity |].
  destruct (GenerateConfiguration_run w (generate_args args w)) as [e |];
    [reflexivity |].
  destruct (validateDown w (watcher_of args)) as [[|] | e |];
    try reflexivity.
  destruct (outcome (join args w)); cbn [trace];
    rewrite ?steps_app, steps_join, ?steps_cleanup, ?app_nil_r; reflexivity.
Qed.

(** C7.  The calls of a run are made in the order validator (0), generator
    (1), [validateDown] (2), [startWatchingUntilUp] (3), packager runner (4),
    platform runners (5 to 8), each at most once.  A run stopped by the
    validator makes no later call, one stopped by the generator none after
    it, and one stopped at the port gate ([validateDown] not answering true)
    none after [validateDown]; a run that passes the three gates starts the
    watcher, then the packager unless skipped, then the requested
    platforms. *)
Theorem C7_steps_in_order (args : Args) (w : world) :
  StronglySorted lt (steps (trace (run args w))) /\
  (RNCLIConfigValidator_run w <> None -> steps (trace (run args w)) = [0]) /\
  (RNCLIConfigValidator_run w = None ->
   GenerateConfiguration_run w (generate_args args w) <> None ->
   steps (trace (run args w)) = [0; 1]) /\
  (RNCLIConfigValidator_run w = None ->
   GenerateConfiguration_run w (generate_args args w) = None ->
   validateDown w (watcher_of args) <> Resolves true ->
   steps (trace (run args w)) = [0; 1; 2]) /\
  (gates_pass args w ->
   steps (trace (run args w))
   = [0; 1; 2; 3] ++ (if no_packager args then [] else [4]) ++
     (if run_ios args then [5; 6] else []) ++
     (if run_android args then [7; 8] else [])).
Proof.
  rewrite steps_run. unfold gates_pass.
  split; [| split; [| split; [| split]]].
  - destruct (RNCLIConfigValidator_run w) as [e |]; [repeat constructor |].
    destruct (GenerateConfiguration_run w (generate_args args w)) as [e |];
      [repeat constructor |].
    destruct (validateDown w (watcher_of args)) as [[|] | e |];
      [rewrite steps_prelude | ..]; [| repeat constructor ..].
    destruct (no_packager args), (run_ios args), (run_android args);
      repeat constructor.
  - intros H. destruct (RNCLIConfigValidator_run w); [reflexivity | congruence].
  - intros -> H.
    destruct (GenerateConfiguration_run w (generate_args args w));
      [reflexivity | congruence].
  - intros -> -> H.
    destruct (validateDown w (watcher_of args)) as [[|] | e |];
      try reflexivity; congruence.
  - intros (-> & -> & ->). apply steps_prelude.
Qed.

(* ------------------------------------------------------------------ *)
(** ** Errors of the platform runners *)
(* ------------------------------------------------------------------ *)







(** Both runners fail, Android first, and the iOS wrapper still resumes
    before [run] does: both errors are logged, the Android one is caught. *)
Example run_both_fail_close :
  skipn 14 (trace (run both_platforms both_fail_close))
  = [Settled Android (Rejected "no device");
     Log_error "Error running Android tasks:" (Some "no device");
     Settled Ios (Rejected "no simulator");
     Log_error "Error running iOS tasks:" (Some "no simulator");
     Log_error "An error occurred:" (Some "no device");
     Log_info "Stopping the Metro Bundler process...";
     Process_kill;
     Process_exit 0].
Proof. vm_compute. reflexivity. Qed.

(** The Android runner never finishes: [run] stays suspended at line 106. *)
Example run_android_hangs :
  outcome (run both_platforms android_hangs) = Pending /\
  skipn 14 (trace (run both_platforms android_hangs))
  = [Settled Ios Fulfilled].
Proof. split; vm_compute; reflexivity. Qed.

(** The probe of the port fails: the [catch] block runs before anything is
    started. *)
Example run_probe_fails :
  outcome (run both_platforms probe_fails) = Exit 0 /\
  skipn 6 (trace (run both_platforms probe_fails))
  = [Log_error "An error occurred:" (Some "ECONNRESET");
     Log_info "No Metro Bundler process to stop.";
     Process_exit 0].
Proof. split; vm_compute; reflexivity. Qed.




(* ------------------------------------------------------------------ *)
(** ** The fan-out *)
(* ------------------------------------------------------------------ *)

(** Fail fast at the level of the [await]: a rejection ends it once the
    rejected wrapper has resumed, when the other platform is still pending
    at the moment [run] resumes. *)
Lemma join_fails_fast (args : Args) (w : world) (pf : platform) (e : error)
      (p' : promise) :
  launched args w pf (Settles (Rejected e)) ->
  launched args w (sibling pf) p' ->
  p' = NeverSettles \/ (first_settled w = pf /\ overtaking w = 0) ->
  join args w
  = mkResult [Settled pf (Rejected e); Log_error (branch_label pf) (Some e)]
             (retained_handle args w) (Throw e).
Proof.
  intros Hl Hl' Hlate. rewrite join_eq.
  unfold join_events, join_outcome, branches.
  destruct pf; cbn [sibling] in Hl';
    rewrite (launched_branch _ _ _ _ Hl), (launched_branch _ _ _ _ Hl');
    (destruct Hlate as [-> | [-> ->]];
     [destruct (first_settled w), (overtaking w)
     | destruct p' as [s' |]]); reflexivity.
Qed.

(** The other wrapper overtakes: its promise is settled after the rejection
    but before [run] resumes, so it resumes first. *)
Lemma join_overtaken (args : Args) (w : world) (pf : platform) (e : error)
      (s' : settlement) :
  launched args w pf (Settles (Rejected e)) ->
  launched args w (sibling pf) (Settles s') ->
  first_settled w = pf ->
  overtaking w <> 0 ->
  join args w
  = mkResult (wrapper_events (pf, Rejected e) ++
              wrapper_events (sibling pf, s'))
             (retained_handle args w) (Throw e).
Proof.
  intros Hl Hl' Hfirst Hk. rewrite join_eq.
  unfold join_events, join_outcome, branches. rewrite Hfirst.
  destruct (overtaking w) as [| k]; [contradiction |].
  destruct pf; cbn [sibling] in *;
    rewrite (launched_branch _ _ _ _ Hl), (launched_branch _ _ _ _ Hl');
    destruct s'; cbn; rewrite firstn_nil; reflexivity.
Qed.

(** Fail fast at the level of the run: the [catch] block runs while the
    other platform has not settled. *)
Lemma run_fails_fast (args : Args) (w : world) (pf : platform) (e : error)
      (p' : promise) :
  gates_pass args w ->
  launched args w pf (Settles (Rejected e)) ->
  launched args w (sibling pf) p' ->
  p' = NeverSettles \/ (first_settled w = pf /\ overtaking w = 0) ->
  outcome (run args w) = Exit 0 /\
  In (catch_entry e) (trace (run args w)) /\
  ~ has_settled (sibling pf) (trace (run args w)) /\
  (forall k, store (run args w) = Killable k ->
             In Process_kill (trace (run args w))).
Proof.
  intros Hp Hl Hl' Hlate.
  pose proof (join_fails_fast args w pf e p' Hl Hl' Hlate) as Hj.
  assert (run args w
          = mkResult ((prelude args w ++
                       [Settled pf (Rejected e);
                        Log_error (branch_label pf) (Some e)]) ++
                      cleanup_events e (retained_handle args w))
                     (retained_handle args w) (Exit 0)) as Hrun
      by (rewrite (run_pass args w Hp), Hj; reflexivity).
  rewrite Hrun. cbn [trace outcome store].
  split; [reflexivity |]. split; [| split].
  - apply in_or_app. right. simpl. auto.
  - intros [s Hin]. rewrite !in_app_iff in Hin.
    destruct Hin as [[Hin | Hin] | Hin].
    + apply (in_count is_settled) in Hin; [| reflexivity].
      now rewrite (proj1 (proj2 (proj2 (prelude_counts args w)))) in Hin.
    + cbn [In] in Hin. destruct Hin as [Hin | [Hin | []]];
        [| discriminate].
      injection Hin as Hpf _. destruct pf; discriminate.
    + apply (in_count is_settled) in Hin; [| reflexivity].
      now rewrite (proj1 (proj2 (proj2 (cleanup_counts _ _)))) in Hin.
  - intros k ->. apply in_or_app. right. simpl. auto.
Qed.






(* ================================================================== *)
(** * Further properties of [run] *)
(* ================================================================== *)

(** ** How a run ends *)

(** X1.  [run] returns normally if and only if the validator and the
    generator pass, [validateDown] answers true, and the promise of every
    requested platform runner is fulfilled. *)
Theorem X1_returns_iff_all_succeed (args : Args) (w : world) :
  outcome (run args w) = Normal tt <->
  gates_pass args w /\ succeeds args w Ios /\ succeeds args w Android.
Proof.
  rewrite <- join_normal. unfold gates_pass. rewrite run_cases.
  destruct (RNCLIConfigValidator_run w) as [e |];
    [split; [discriminate | intros [(H & _) _]; discriminate] |].
  destruct (GenerateConfiguration_run w (generate_args args w)) as [e |];
    [split; [discriminate | intros [(_ & H & _) _]; discriminate] |].
  destruct (validateDown w (watcher_of args)) as [[|] | e |];
    try (split; [discriminate | intros [(_ & _ & H) _]; discriminate]).
  destruct (outcome (join args w)) as [[] | e | c |]; cbn [outcome];
    split; try discriminate; try tauto; intros [_ H]; discriminate.
Qed.

(** X2.  [run] never settles, without exiting, exactly in two cases: the
    promise of [validateDown] never settles after both configuration gates
    passed; or the gates pass, no platform runner fails and a launched
    runner never settles.  Nothing is killed then. *)
Theorem X2_pending_iff (args : Args) (w : world) :
  (outcome (run args w) = Pending <->
   (RNCLIConfigValidator_run w = None /\
    GenerateConfiguration_run w (generate_args args w) = None /\
    validateDown w (watcher_of args) = StaysPending) \/
   (gates_pass args w /\
    (forall pf e, ~ fails args w pf e) /\
    exists pf, launched args w pf NeverSettles)) /\
  (outcome (run args w) = Pending ->
   count is_kill (trace (run args w)) = 0 /\
   count is_catch_entry (trace (run args w)) = 0).
Proof.
  split.
  - rewrite <- join_pending. unfold gates_pass. rewrite run_cases.
    destruct (RNCLIConfigValidator_run w) as [e |];
      [split; [discriminate | intros [(H & _) | ((H & _) & _)]; discriminate] |].
    destruct (GenerateConfiguration_run w (generate_args args w)) as [e |];
      [split; [discriminate
              | intros [(_ & H & _) | ((_ & H & _) & _)]; discriminate] |].
    destruct (validateDown w (watcher_of args)) as [[|] | e |];
      try (split; [discriminate
                  | intros [(_ & _ & H) | ((_ & _ & H) & _)]; discriminate]);
      [| tauto].
    destruct (outcome (join args w)) as [[] | e | c |]; cbn [outcome];
      split; try discriminate; try tauto;
      intros [(_ & _ & H) | (_ & H)]; discriminate.
  - intros Ho. rewrite kill_count, catch_entry_count, Ho. auto.
Qed.

(** X3.  [run] ends by [process.exit(0)] exactly when something failed
    other than the port being in use: the validator or the generator
    throws, the promise of [validateDown] is rejected, or the gates pass
    and a requested platform runner fails. *)
Theorem X3_exit_zero_iff (args : Args) (w : world) :
  outcome (run args w) = Exit 0 <->
  RNCLIConfigValidator_run w <> None \/
  (RNCLIConfigValidator_run w = None /\
   GenerateConfiguration_run w (generate_args args w) <> None) \/
  (RNCLIConfigValidator_run w = None /\
   GenerateConfiguration_run w (generate_args args w) = None /\
   exists e, validateDown w (watcher_of args) = RejectsWith e) \/
  (gates_pass args w /\ exists pf e, fails args w pf e).
Proof.
  rewrite <- join_throw_iff. unfold gates_pass. rewrite run_cases.
  destruct (RNCLIConfigValidator_run w) as [e |];
    [split; [left; discriminate | reflexivity] |].
  destruct (GenerateConfiguration_run w (generate_args args w)) as [e |];
    [split; [right; left; split; [reflexivity | discriminate]
            | reflexivity] |].
  destruct (validateDown w (watcher_of args)) as [[|] | e |].
  - destruct (outcome (join args w)) as [[] | e | c |] eqn:Hj; cbn [outcome];
      split; try discriminate.
    + intros [H | [(_ & H) | [(_ & _ & e & H) | (_ & e & H)]]];
        congruence.
    + intros _. right; right; right. eauto.
    + reflexivity.
    + now destruct (join_no_exit args w c).
    + intros [H | [(_ & H) | [(_ & _ & e & H) | (_ & e & H)]]];
        congruence.
    + intros [H | [(_ & H) | [(_ & _ & e & H) | (_ & e & H)]]];
        congruence.
  - split; [discriminate |].
    intros [H | [(_ & H) | [(_ & _ & e & H) | ((_ & _ & H) & _)]]];
      congruence.
  - split; [| reflexivity]. intros _. right; right; left. eauto.
  - split; [discriminate |].
    intros [H | [(_ & H) | [(_ & _ & e & H) | ((_ & _ & H) & _)]]];
      congruence.
Qed.

(** ** Where the events of a run come from *)

Lemma in_run_origin (args : Args) (w : world) (ev : event) :
  In ev (trace (run args w)) ->
  In ev (prelude args w) \/
  is_branch_event ev = true \/
  (exists ex h, In ev (cleanup_events ex h)) \/
  ev = Log_error (port_in_use_message args) None \/
  ev = Process_exit 1.
Proof.
  assert (forall n, In ev (firstn n (gate_events args w)) ->
                    In ev (prelude args w)) as Hg.
  { intros n H. apply in_firstn in H. unfold prelude.
    apply in_or_app. now left. }
  assert (In ev (gate_events args w) -> In ev (prelude args w)) as Hg'
      by (intros H; unfold prelude; apply in_or_app; now left).
  rewrite run_cases.
  destruct (RNCLIConfigValidator_run w) as [e |];
    [| destruct (GenerateConfiguration_run w (generate_args args w))
        as [e |];
       [| destruct (validateDown w (watcher_of args)) as [[|] | e |];
          [destruct (outcome (join args w)) as [[] | e | c |] | ..]]];
    cbn [trace]; rewrite ?in_app_iff; intros H;
    repeat match goal with
           | H : _ \/ _ |- _ => destruct H as [H | H]
           | H : In _ (trace (join _ _)) |- _ => apply in_join in H
           | H : In _ [_; _] |- _ => simpl in H
           | H : False |- _ => contradiction
           end; eauto 8.
Qed.

Ltac outside_prelude H :=
  destruct H as [H | [H | [(? & h & H) | [H | H]]]];
  [ | discriminate
    | destruct h as [| | [? |]]; cbn in H; unfold catch_entry in H;
      repeat match goal with
             | H : _ \/ _ |- _ => destruct H as [H | H]
             end; try discriminate; contradiction
    | discriminate
    | discriminate ].

(** A call that starts something is only made once the gates are passed. *)
Lemma starts_need_gates (args : Args) (w : world) (ev : event) :
  starts_process ev = true ->
  In ev (trace (run args w)) ->
  gates_pass args w /\ In ev (prelude args w).
Proof.
  intros Hs Hin.
  assert (In ev (prelude args w)) as Hpre.
  { apply in_run_origin in Hin.
    destruct Hin as [H | [H | [(ex & h & H) | [H | H]]]]; try exact H;
      try (subst ev; discriminate).
    - destruct (branch_event_only ev H) as (Hc & _). congruence.
    - apply (in_count starts_process) in H; [| exact Hs].
      now rewrite (proj2 (proj2 (proj2 (proj2 (proj2 (proj2
                     (cleanup_counts ex h))))))) in H. }
  split; [| exact Hpre]. unfold gates_pass. revert Hin. rewrite run_cases.
  destruct (RNCLIConfigValidator_run w) as [e |];
    [| destruct (GenerateConfiguration_run w (generate_args args w))
        as [e |];
       [| destruct (validateDown w (watcher_of args)) as [[|] | e |]]];
    try solve [intros _; repeat split];
    cbn [trace]; intros H;
    apply (in_count starts_process) in H; try exact Hs;
    exfalso; apply H; reflexivity.
Qed.

(** ** Arguments handed to the collaborators *)

Lemma config_path_chosen (args : Args) (w : world) :
  config_path args w = chosen_config (custom_config_json args) (cwd w).
Proof.
  unfold config_path, chosen_config.
  destruct (custom_config_json args) as [[| c s] |]; reflexivity.
Qed.

(** X7.  The generator is called exactly when the validator passes, and
    always with [watch] off, the [force_localhost] flag of the arguments,
    the directory five levels above the one of Engine.js as root, and as
    configuration file the [custom_config_json] argument when it is a
    non-empty string, otherwise (absent or empty) the [package.json] of the
    working directory. *)
Theorem X7_generator_options (args : Args) (w : world) :
  ((exists o, In (Generate_run o) (trace (run args w)))
   <-> RNCLIConfigValidator_run w = None) /\
  (forall o,
      In (Generate_run o) (trace (run args w)) ->
      watch o = false /\
      go_force_localhost o = force_localhost args /\
      root_path o = ((dirname w ++ "/../../..") ++ "/../..")%string /\
      package_json_path o
      = chosen_config (custom_config_json args) (cwd w)) /\
  chosen_config None (cwd w) = (cwd w ++ "/package.json")%string /\
  chosen_config (Some "") (cwd w) = (cwd w ++ "/package.json")%string /\
  (forall s, s <> "" -> chosen_config (Some s) (cwd w) = s).
Proof.
  assert (forall o, In (Generate_run o) (trace (run args w)) ->
                    o = generate_args args w) as Hgen.
  { intros o H. apply in_run_origin in H. outside_prelude H.
    revert H. prelude_cases args w; cbn; intros H;
      repeat match goal with
             | H : _ \/ _ |- _ => destruct H as [H | H]
             end; try discriminate; try contradiction; congruence. }
  split; [| split; [| split; [| split]]].
  - split.
    + intros [o H]. revert H. rewrite run_cases.
      destruct (RNCLIConfigValidator_run w) as [e |]; [| reflexivity].
      cbn. unfold catch_entry. intros H.
      repeat match goal with
             | H : _ \/ _ |- _ => destruct H as [H | H]
             end; try discriminate; contradiction.
    + intros Hv. exists (generate_args args w). rewrite run_cases, Hv.
      destruct (GenerateConfiguration_run w (generate_args args w))
        as [e |];
        [| destruct (validateDown w (watcher_of args)) as [[|] | e |];
           [destruct (outcome (join args w)) as [[] | e | c |] | ..]];
        cbn [trace]; unfold prelude; rewrite ?in_app_iff;
        unfold gate_events; cbn [firstn In]; tauto.
  - intros o H. apply Hgen in H. subst o. cbn.
    rewrite config_path_chosen. auto.
  - reflexivity.
  - reflexivity.
  - intros s Hs. unfold chosen_config.
    destruct (String.eqb s "") eqn:He; [| reflexivity].
    apply String.eqb_eq in He. contradiction.
Qed.

Lemma run_after_prelude (args : Args) (w : world) :
  gates_pass args w ->
  exists rest, trace (run args w) = prelude args w ++ rest.
Proof.
  intros Hp. rewrite (run_pass args w Hp).
  destruct (outcome (join args w)); cbn [trace];
    rewrite <- ?app_assoc; eauto.
Qed.

(** X6.  A platform runner is built and run only in a run that passed the
    gates and requested its platform.  It is built on a watcher with the
    port and the [no_packager] flag of the arguments (iOS: with the device
    lists of the arguments), after [startWatchingUntilUp] was called on such
    a watcher, and its [run] is called right after its construction with the
    engine directory, the build type and the uninstall flag of the arguments
    (iOS: and the [simulator] constant). *)
Theorem X6_runner_calls (args : Args) (w : world) :
  (forall r,
      In (Ios_new r) (trace (run args w)) ->
      run_ios args = true /\ gates_pass args w /\
      r = {| ios_watcher := {| w_port := packager_port args;
                               w_no_packager := no_packager args |};
             ir_devices := ios_devices args;
             ir_udids := ios_udids args |} /\
      exists before after,
        trace (run args w)
        = before ++
          Ios_new r ::
          Ios_run r (engineDir w) (native_build_type args)
                  (disable_uninstall args) (simulator w) :: after /\
        In (Watcher_startWatchingUntilUp (ios_watcher r)) before) /\
  (forall r d b u t,
      In (Ios_run r d b u t) (trace (run args w)) ->
      In (Ios_new r) (trace (run args w)) /\
      d = engineDir w /\ b = native_build_type args /\
      u = disable_uninstall args /\ t = simulator w) /\
  (forall r,
      In (Android_new r) (trace (run args w)) ->
      run_android args = true /\ gates_pass args w /\
      r = {| android_watcher := {| w_port := packager_port args;
                                   w_no_packager := no_packager args |} |} /\
      exists before after,
        trace (run args w)
        = before ++
          Android_new r ::
          Android_run r (engineDir w) (native_build_type args)
                      (disable_uninstall args) :: after /\
        In (Watcher_startWatchingUntilUp (android_watcher r)) before) /\
  (forall r d b u,
      In (Android_run r d b u) (trace (run args w)) ->
      In (Android_new r) (trace (run args w)) /\
      d = engineDir w /\ b = native_build_type args /\
      u = disable_uninstall args).
Proof.
  split; [| split; [| split]].
  - intros r H. apply starts_need_gates in H; [| reflexivity].
    destruct H as [Hp H].
    assert (run_ios args = true /\
            r = {| ios_watcher := watcher_of args;
                   ir_devices := ios_devices args;
                   ir_udids := ios_udids args |}) as [Hr ->].
    { revert H. prelude_cases args w; cbn; intros H;
        repeat match goal with
               | H : _ \/ _ |- _ => destruct H as [H | H]
               end; try discriminate; try contradiction;
        injection H as <-; auto. }
    split; [exact Hr |]. split; [exact Hp |]. split; [reflexivity |].
    destruct (run_after_prelude args w Hp) as [rest Htr].
    exists (gate_events args w ++ packager_events args w ++
            [Log_info "Running platform-specific tasks..."]).
    exists (match runner_answer args w Ios with
            | RunThrows e => [Log_error (branch_label Ios) (Some e)]
            | RunReturns _ => []
            end ++ launch_events args w Android ++ rest).
    split.
    + rewrite Htr. unfold prelude. unfold launch_events at 1.
      cbn [requested]. rewrite Hr.
      generalize (launch_events args w Android) as la.
      generalize (match runner_answer args w Ios with
                  | RunThrows e => [Log_error (branch_label Ios) (Some e)]
                  | RunReturns _ => []
                  end) as ll.
      generalize (Log_info "Running platform-specific tasks...") as ev.
      generalize (gate_events args w) as lg.
      generalize (packager_events args w) as lp.
      intros. repeat (rewrite <- app_assoc; simpl). reflexivity.
    + unfold packager_events. rewrite !in_app_iff. right. left. now left.
  - intros r d b u t H. apply starts_need_gates in H; [| reflexivity].
    destruct H as [Hp H].
    assert (In (Ios_new r) (prelude args w) /\
            d = engineDir w /\ b = native_build_type args /\
            u = disable_uninstall args /\ t = simulator w) as [Hn Heq].
    { revert H. prelude_cases args w; cbn; intros H;
        repeat match goal with
               | H : _ \/ _ |- _ => destruct H as [H | H]
               end; try discriminate; try contradiction;
        injection H as <- <- <- <- <-; tauto. }
    split; [now apply prelude_in_run | exact Heq].
  - intros r H. apply starts_need_gates in H; [| reflexivity].
    destruct H as [Hp H].
    assert (run_android args = true /\
            r = {| android_watcher := watcher_of args |}) as [Hr ->].
    { revert H. prelude_cases args w; cbn; intros H;
        repeat match goal with
               | H : _ \/ _ |- _ => destruct H as [H | H]
               end; try discriminate; try contradiction;
        injection H as <-; auto. }
    split; [exact Hr |]. split; [exact Hp |]. split; [reflexivity |].
    destruct (run_after_prelude args w Hp) as [rest Htr].
    exists (gate_events args w ++ packager_events args w ++
            Log_info "Running platform-specific tasks..." ::
            launch_events args w Ios).
    exists (match runner_answer args w Android with
            | RunThrows e => [Log_error (branch_label Android) (Some e)]
            | RunReturns _ => []
            end ++ rest).
    split.
    + rewrite Htr. unfold prelude. unfold launch_events at 2.
      cbn [requested]. rewrite Hr.
      generalize (launch_events args w Ios) as li.
      generalize (match runner_answer args w Android with
                  | RunThrows e => [Log_error (branch_label Android) (Some e)]
                  | RunReturns _ => []
                  end) as ll.
      generalize (Log_info "Running platform-specific tasks...") as ev.
      generalize (gate_events args w) as lg.
      generalize (packager_events args w) as lp.
      intros. repeat (rewrite <- app_assoc; simpl). reflexivity.
    + unfold packager_events. rewrite !in_app_iff. right. left. now left.
  - intros r d b u H. apply starts_need_gates in H; [| reflexivity].
    destruct H as [Hp H].
    assert (In (Android_new r) (prelude args w) /\
            d = engineDir w /\ b = native_build_type args /\
            u = disable_uninstall args) as [Hn Heq].
    { revert H. prelude_cases args w; cbn; intros H;
        repeat match goal with
               | H : _ \/ _ |- _ => destruct H as [H | H]
               end; try discriminate; try contradiction;
        injection H as <- <- <- <-; tauto. }
    split; [now apply prelude_in_run | exact Heq].
Qed.

(** ** Skipping the packager *)

(** X5.  With [no_packager] set the run never kills anything: whatever
    fails, [packagerProcess] stays undefined, [kill] is never requested,
    and a run that reaches the [catch] block logs that there is no bundler
    process to stop. *)
Theorem X5_skipped_packager_is_never_killed (args : Args) (w : world) :
  no_packager args = true ->
  store (run args w) = Undefined /\
  count is_kill (trace (run args w)) = 0 /\
  (caught (trace (run args w)) ->
   In (Log_info "No Metro Bundler process to stop.") (trace (run args w))).
Proof.
  intros Hn.
  assert (store (run args w) = Undefined) as Hs.
  { destruct (store_run args w) as [H | [_ H]]; [exact H |].
    rewrite H. unfold retained_handle. now rewrite Hn. }
  split; [exact Hs |]. split.
  - rewrite kill_count, Hs.
    destruct (outcome (run args w)) as [| | [| |] |]; reflexivity.
  - intros Hc. apply caught_exits_zero in Hc.
    destruct (caught_trace args w Hc) as (before & ex & Htr).
    rewrite Htr, Hs. apply in_or_app. right. simpl. auto.
Qed.

Lemma X5_skipped_packager_witness :
  no_packager both_skip_packager = true /\
  store (run both_skip_packager ios_fails_first) = Undefined /\
  count is_kill (trace (run both_skip_packager ios_fails_first)) = 0.
Proof.
  destruct (X5_skipped_packager_is_never_killed both_skip_packager
              ios_fails_first eq_refl) as (Hs & Hk & _).
  split; [reflexivity |]. split; [exact Hs | exact Hk].
Defined.

(** ** Which error is reported *)

(** X9.  When both launched runners are rejected, the [catch] block is
    entered exactly once, with the error of the runner whose promise is
    rejected first, whichever platform it is.  The error of the other one
    is logged by its wrapper only if that wrapper still resumes before [run]
    does; otherwise the wrapper never resumes. *)
Theorem X9_first_rejection_is_reported (args : Args) (w : world)
        (ei ea : error) :
  gates_pass args w ->
  launched args w Ios (Settles (Rejected ei)) ->
  launched args w Android (Settles (Rejected ea)) ->
  outcome (run args w) = Exit 0 /\
  In (catch_entry (match first_settled w with Ios => ei | Android => ea end))
     (trace (run args w)) /\
  count is_catch_entry (trace (run args w)) = 1 /\
  (overtaking w = 0 ->
   ~ has_settled (sibling (first_settled w)) (trace (run args w))) /\
  (overtaking w <> 0 ->
   In (Log_error "Error running iOS tasks:" (Some ei)) (trace (run args w)) /\
   In (Log_error "Error running Android tasks:" (Some ea))
      (trace (run args w))).
Proof.
  intros Hp Hi Ha.
  assert (outcome (run args w) = Exit 0) as Ho.
  { destruct (join_throws args w Ios ei) as [ex Hj];
      [split; [apply Hi | right; apply Hi] |].
    now rewrite (run_pass args w Hp), Hj. }
  split; [exact Ho |].
  split; [| split; [now rewrite catch_entry_count, Ho |]].
  - destruct (Nat.eq_dec (overtaking w) 0) as [Hk | Hk];
      destruct (first_settled w) eqn:Hf.
    + now apply (run_fails_fast args w Ios ei _ Hp Hi Ha); right.
    + now apply (run_fails_fast args w Android ea _ Hp Ha Hi); right.
    + rewrite (run_pass args w Hp),
        (join_overtaken args w Ios ei _ Hi Ha Hf Hk).
      cbn [trace outcome]. apply in_or_app. right. simpl. auto.
    + rewrite (run_pass args w Hp),
        (join_overtaken args w Android ea _ Ha Hi Hf Hk).
      cbn [trace outcome]. apply in_or_app. right. simpl. auto.
  - split.
    + intros Hk. destruct (first_settled w) eqn:Hf.
      * now apply (run_fails_fast args w Ios ei _ Hp Hi Ha); right.
      * now apply (run_fails_fast args w Android ea _ Hp Ha Hi); right.
    + intros Hk. destruct (first_settled w) eqn:Hf.
      * rewrite (run_pass args w Hp),
          (join_overtaken args w Ios ei _ Hi Ha Hf Hk).
        cbn [trace outcome sibling]. rewrite !in_app_iff.
        split; left; right; [left | right]; simpl; auto.
      * rewrite (run_pass args w Hp),
          (join_overtaken args w Android ea _ Ha Hi Hf Hk).
        cbn [trace outcome sibling]. rewrite !in_app_iff.
        split; left; right; [right | left]; simpl; auto.
Qed.

Lemma X9_first_rejection_witness :
  gates_pass both_platforms both_fail_close /\
  In (catch_entry "no device")
     (trace (run both_platforms both_fail_close)) /\
  count is_catch_entry (trace (run both_platforms both_fail_close)) = 1.
Proof.
  assert (gates_pass both_platforms both_fail_close) as Hp
      by (repeat split).
  split; [exact Hp |].
  destruct (X9_first_rejection_is_reported both_platforms both_fail_close
              "no simulator" "no device" Hp)
    as (_ & Hin & Hc & _).
  - split; reflexivity.
  - split; reflexivity.
  - split; [exact Hin | exact Hc].
Defined.

(** X8.  A platform runner that throws as soon as it is called does not
    stop the fan-out: when the iOS runner throws [e] at the call, its wrapper
    logs [e], the Android runner is still built and run afterwards if
    requested, and the [catch] block is then entered with [e], whatever the
    Android runner does. *)
Theorem X8_throwing_runner_does_not_stop_the_launch (args : Args) (w : world)
        (e : error) :
  gates_pass args w ->
  run_ios args = true ->
  runner_answer args w Ios = RunThrows e ->
  outcome (run args w) = Exit 0 /\
  In (catch_entry e) (trace (run args w)) /\
  exists before after,
    trace (run args w)
    = before ++ Log_error "Error running iOS tasks:" (Some e) ::
      launch_events args w Android ++ after /\
    (run_android args = true ->
     In (Android_run {| android_watcher := watcher_of args |} (engineDir w)
                     (native_build_type args) (disable_uninstall args))
        (launch_events args w Android)).
Proof.
  intros Hp Hr Ht.
  assert (branch_of args w Ios = Finished (Rejected e)) as Hb
      by (unfold branch_of; cbn [requested]; now rewrite Hr, Ht).
  assert (join args w
          = mkResult (overtaking_events
                        (overtaking w)
                        (resume_queue (first_settled w) (branches args w)))
                     (retained_handle args w) (Throw e)) as Hj.
  { rewrite join_eq. unfold join_events, join_outcome, branches.
    rewrite Hb. reflexivity. }
  rewrite (run_pass args w Hp), Hj. cbn [trace outcome].
  split; [reflexivity |]. split.
  - apply in_or_app. right. simpl. auto.
  - exists (gate_events args w ++ packager_events args w ++
            Log_info "Running platform-specific tasks..." ::
            firstn 2 (launch_events args w Ios)),
      (overtaking_events
         (overtaking w)
         (resume_queue (first_settled w) (branches args w)) ++
       cleanup_events e (retained_handle args w)).
    split.
    + assert (launch_events args w Ios
              = firstn 2 (launch_events args w Ios) ++
                [Log_error "Error running iOS tasks:" (Some e)]) as HL
          by (unfold launch_events; cbn [requested]; rewrite Hr, Ht;
              reflexivity).
      unfold prelude. rewrite HL at 1.
      generalize (firstn 2 (launch_events args w Ios)) as l2.
      generalize (launch_events args w Android) as la.
      generalize (overtaking_events
                    (overtaking w)
                    (resume_queue (first_settled w) (branches args w)))
        as lt.
      generalize (cleanup_events e (retained_handle args w)) as lc.
      generalize (Log_info "Running platform-specific tasks...") as ev.
      generalize (Log_error "Error running iOS tasks:" (Some e)) as ev'.
      generalize (gate_events args w) as lg.
      generalize (packager_events args w) as lp.
      intros. repeat (rewrite <- app_assoc; simpl). reflexivity.
    + intros Ha. unfold launch_events. cbn [requested]. rewrite Ha.
      apply in_or_app. left. simpl. auto.
Qed.

Lemma X8_throwing_runner_witness :
  gates_pass both_platforms ios_throws_at_once /\
  outcome (run both_platforms ios_throws_at_once) = Exit 0 /\
  In (catch_entry "xcrun not found")
     (trace (run both_platforms ios_throws_at_once)).
Proof.
  assert (gates_pass both_platforms ios_throws_at_once) as Hp
      by (repeat split).
  split; [exact Hp |].
  destruct (X8_throwing_runner_does_not_stop_the_launch both_platforms
              ios_throws_at_once "xcrun not found" Hp eq_refl eq_refl)
    as (Ho & Hin & _).
  split; [exact Ho | exact Hin].
Defined.

(** ** No platform requested *)

(** X10.  With neither platform requested, a run that passes the gates
    starts the watcher, starts the packager unless skipped, logs that it
    runs the platform tasks and returns: no runner is built, nothing is
    killed, the process does not exit and the packager handle is kept. *)
Theorem X10_no_platform_requested (args : Args) (w : world) :
  gates_pass args w ->
  run_ios args = false ->
  run_android args = false ->
  run args w
  = mkResult (gate_events args w ++ packager_events args w ++
              [Log_info "Running platform-specific tasks..."])
             (if no_packager args then Undefined
              else AsyncPackagerRunner_run w (engineDir w) (reset_cache args)
                                           (packager_port args))
             (Normal tt).
Proof.
  intros Hp Hi Ha.
  assert (join args w = mkResult [] (retained_handle args w) (Normal tt))
    as Hj.
  { rewrite join_eq.
    unfold join_events, join_outcome, branches, branch_of.
    cbn [requested]. rewrite Hi, Ha. reflexivity. }
  rewrite (run_pass args w Hp), Hj. cbn [trace outcome].
  unfold prelude, launch_events. simpl requested. rewrite Hi, Ha.
  cbn [app]. now rewrite !app_nil_r.
Qed.

Lemma X10_no_platform_witness :
  gates_pass no_platform all_well /\
  outcome (run no_platform all_well) = Normal tt /\
  store (run no_platform all_well) = Killable None.
Proof.
  assert (gates_pass no_platform all_well) as Hp by (repeat split).
  split; [exact Hp |].
  rewrite (X10_no_platform_requested no_platform all_well Hp eq_refl eq_refl).
  split; reflexivity.
Defined.
